(** * Feliz-Natal: the song list store and the player controller

    A shallow embedding of the state logic of [src/App.tsx] and
    [src/components/SongCard.tsx]: the ordered song list ([songs]), the
    [PlayerState] record, and the event handlers that update them.

    - JavaScript strings are sequences of UTF-16 code units ([jsstring]).
    - JavaScript numbers are IEEE 754 binary64 values ([float]); array indices
      are integers ([Z], with [-1] for "not found").
    - [setPlayerState (prev => ...)] is a function on [PlayerState.t]; calls on
      the shared [Audio] element are recorded as a list of [AudioCmd].
    - [crypto.randomUUID] and [URL.createObjectURL] draw from a [World]. *)

From Stdlib Require Import ZArith NArith List Bool Lia Ascii PrimFloat.
From Stdlib Require String.
Import String.StringSyntax.
Bind Scope string_scope with String.string.
From Stdlib Require Import Permutation.
Import ListNotations.

(** ** JavaScript strings *)

Definition jsstring : Type := list N.

(** The code units of an ASCII literal. *)
Definition js (s : String.string) : jsstring :=
  map N_of_ascii (String.list_ascii_of_string s).

(** [a === b] on strings. *)
Fixpoint str_eqb (a b : jsstring) : bool :=
  match a, b with
  | [], [] => true
  | x :: a', y :: b' => N.eqb x y && str_eqb a' b'
  | _, _ => false
  end.

(** ** src/types.ts *)

Module File.
(** The part of a DOM [File] the program reads: its [name]; [bytes] stands
    for the blob behind it. *)
Record t := mk { name : jsstring; bytes : list N }.
End File.

Module Song.
Record t := mk {
  id : jsstring;
  name : jsstring;
  url : jsstring;
  file : File.t
}.

(** [{ ...song, name: newName }] *)
Definition with_name (song : t) (newName : jsstring) : t :=
  {| id := id song; name := newName; url := url song; file := file song |}.
End Song.

Module PlayerState.
Record t := mk {
  isPlaying : bool;
  currentSongId : option jsstring;
  currentTime : float;
  duration : float
}.
End PlayerState.

Import PlayerState(isPlaying, currentSongId, currentTime, duration).

(** [useState<PlayerState>({ isPlaying: false, currentSongId: null,
    currentTime: 0, duration: 0 })] *)
Definition initialPlayerState : PlayerState.t :=
  {| isPlaying := false; currentSongId := None;
     currentTime := 0%float; duration := 0%float |}.

(** ** The shared audio element *)

(** What the handlers do to [audioRef.current], in program order. *)
Inductive AudioCmd : Type :=
| CmdSetSrc (u : jsstring)        (* audioRef.current.src = u *)
| CmdLoad                         (* audioRef.current.load() *)
| CmdPlay                         (* audioRef.current.play() *)
| CmdPause                        (* audioRef.current.pause() *)
| CmdSetCurrentTime (t : float).  (* audioRef.current.currentTime = t *)

(** The element's [src] attribute after a run of commands: the last
    assignment wins, the other commands do not write it. *)
Definition src_after (cmds : list AudioCmd) (src0 : jsstring) : jsstring :=
  fold_left (fun s c => match c with CmdSetSrc u => u | _ => s end) cmds src0.

(** Does the run of commands assign [src] or call [load()]? *)
Definition reloads (cmds : list AudioCmd) : bool :=
  existsb (fun c => match c with CmdSetSrc _ | CmdLoad => true | _ => false end) cmds.

(** ** src/App.tsx: audio logic *)

(** [songs.find((s) => s.id === id)] *)
Definition find_song (songs : list Song.t) (id : jsstring) : option Song.t :=
  find (fun s => str_eqb (Song.id s) id) songs.

(** [playerState.currentSongId === id] *)
Definition is_current (playerState : PlayerState.t) (id : jsstring) : bool :=
  match currentSongId playerState with
  | Some c => str_eqb c id
  | None => false
  end.

(** A handler's effect: the commands sent to the audio element and the
    updater handed to [setPlayerState]. *)
Definition Effect : Type := (list AudioCmd * (PlayerState.t -> PlayerState.t))%type.

(** [handlePlay], closed over the rendered [songs] and [playerState]. *)
Definition handlePlay (songs : list Song.t) (playerState : PlayerState.t)
    (id : jsstring) : Effect :=
  match find_song songs id with
  | None => ([], fun prev => prev)
  | Some songToPlay =>
      if is_current playerState id then
        (* Resume *)
        ([CmdPlay],
         fun prev =>
           {| isPlaying := true;
              currentSongId := currentSongId prev;
              currentTime := currentTime prev;
              duration := duration prev |})
      else
        (* New Song *)
        ([CmdSetSrc (Song.url songToPlay); CmdLoad; CmdPlay],
         fun prev =>
           {| isPlaying := true;
              currentSongId := Some id;
              currentTime := 0%float;
              duration := duration prev |})
  end.

Definition handlePause : Effect :=
  ([CmdPause],
   fun prev =>
     {| isPlaying := false;
        currentSongId := currentSongId prev;
        currentTime := currentTime prev;
        duration := duration prev |}).

Definition handleSeek (time : float) : Effect :=
  ([CmdSetCurrentTime time],
   fun prev =>
     {| isPlaying := isPlaying prev;
        currentSongId := currentSongId prev;
        currentTime := time;
        duration := duration prev |}).

(** The listeners of the audio element; [audio_currentTime] and
    [audio_duration] are what the listener reads from the element. *)
Definition onTimeUpdate (audio_currentTime : float) : Effect :=
  ([],
   fun prev =>
     {| isPlaying := isPlaying prev;
        currentSongId := currentSongId prev;
        currentTime := audio_currentTime;
        duration := duration prev |}).

Definition onLoadedMetadata (audio_duration : float) : Effect :=
  ([],
   fun prev =>
     {| isPlaying := isPlaying prev;
        currentSongId := currentSongId prev;
        currentTime := currentTime prev;
        duration := audio_duration |}).

Definition onEnded : Effect :=
  ([],
   fun prev =>
     {| isPlaying := false;
        currentSongId := currentSongId prev;
        currentTime := 0%float;
        duration := duration prev |}).

(** ** The player controller as a transition system

    Handlers run to completion and the component re-renders between events,
    so a handler's closure holds the state its updater is applied to. *)

Inductive PlayerEvent : Type :=
| EvPlay (songs : list Song.t) (id : jsstring)
| EvPause
| EvSeek (time : float)
| EvTimeUpdate (audio_currentTime : float)
| EvLoadedMetadata (audio_duration : float)
| EvEnded.

Definition effect_of (e : PlayerEvent) (s : PlayerState.t) : Effect :=
  match e with
  | EvPlay songs id => handlePlay songs s id
  | EvPause => handlePause
  | EvSeek time => handleSeek time
  | EvTimeUpdate t => onTimeUpdate t
  | EvLoadedMetadata d => onLoadedMetadata d
  | EvEnded => onEnded
  end.

Definition dispatch (e : PlayerEvent) (s : PlayerState.t) : PlayerState.t :=
  snd (effect_of e s) s.

Definition commands (e : PlayerEvent) (s : PlayerState.t) : list AudioCmd :=
  fst (effect_of e s).

(** [play(id)] of the specification: [handlePlay] on the current state. *)
Definition play (songs : list Song.t) (id : jsstring) (s : PlayerState.t)
    : PlayerState.t :=
  dispatch (EvPlay songs id) s.

Definition play_commands (songs : list Song.t) (id : jsstring)
    (s : PlayerState.t) : list AudioCmd :=
  commands (EvPlay songs id) s.

Definition run (evs : list PlayerEvent) (s : PlayerState.t) : PlayerState.t :=
  fold_left (fun st e => dispatch e st) evs s.

Inductive reachable : PlayerState.t -> Prop :=
| reach_init : reachable initialPlayerState
| reach_step : forall s e, reachable s -> reachable (dispatch e s).

Definition is_loadedmetadata (e : PlayerEvent) : bool :=
  match e with EvLoadedMetadata _ => true | _ => false end.

(** The data model's invariant on the list: ids are unique. *)
Definition unique_ids (songs : list Song.t) : Prop :=
  NoDup (map Song.id songs).

(** ** JavaScript built-ins used by the song list *)

(** [WhiteSpace] and [LineTerminator] code points of ECMAScript, the ones
    [String.prototype.trim] strips. *)
Definition is_white_space (c : N) : bool :=
  ((c =? 9) || (c =? 10) || (c =? 11) || (c =? 12) || (c =? 13) || (c =? 32)
   || (c =? 160) || (c =? 5760) || ((8192 <=? c) && (c <=? 8202))
   || (c =? 8232) || (c =? 8233) || (c =? 8239) || (c =? 8287)
   || (c =? 12288) || (c =? 65279))%N.

Fixpoint trimStart (s : jsstring) : jsstring :=
  match s with
  | [] => []
  | c :: s' => if is_white_space c then trimStart s' else s
  end.

Definition trimEnd (s : jsstring) : jsstring := rev (trimStart (rev s)).

(** [s.trim()] *)
Definition trim (s : jsstring) : jsstring := trimEnd (trimStart s).

(** A string used as a condition: the empty string is falsy. *)
Definition truthy (s : jsstring) : bool :=
  match s with [] => false | _ :: _ => true end.

Definition DOT : N := 46%N.
Definition SLASH : N := 47%N.

(** The class [[^/.]]. *)
Definition not_slash_dot (c : N) : bool :=
  negb (N.eqb c SLASH || N.eqb c DOT).

(** Does [/\.[^/.]+$/] match the whole of [rest]?  A dot, then one or more
    code units of the class, then the end of the input. *)
Definition matches_extension (rest : jsstring) : bool :=
  match rest with
  | [] => false
  | c :: tl => N.eqb c DOT && truthy tl && forallb not_slash_dot tl
  end.

(** [s.replace(/\.[^/.]+$/, "")]: the leftmost match, which runs to the end
    of the input, is replaced by the empty string. *)
Fixpoint remove_extension (s : jsstring) : jsstring :=
  match s with
  | [] => []
  | c :: tl => if matches_extension s then [] else c :: remove_extension tl
  end.

(** [items.findIndex(p)]: the first index whose element satisfies [p],
    [-1] when there is none. *)
Fixpoint findIndex_from {A : Type} (p : A -> bool) (items : list A) (i : Z) : Z :=
  match items with
  | [] => (-1)%Z
  | x :: tl => if p x then i else findIndex_from p tl (i + 1)%Z
  end.

Definition findIndex {A : Type} (p : A -> bool) (items : list A) : Z :=
  findIndex_from p items 0%Z.

(** [array.splice(start, deleteCount, ...items)] of ECMAScript: the removed
    elements and the array afterwards. *)
Definition splice {A : Type} (array : list A) (start deleteCount : Z)
    (items : list A) : list A * list A :=
  let len := Z.of_nat (length array) in
  let actualStart :=
    (if start <? 0 then Z.max (len + start) 0 else Z.min start len)%Z in
  let actualDeleteCount :=
    Z.min (Z.max deleteCount 0) (len - actualStart)%Z in
  let s := Z.to_nat actualStart in
  let d := Z.to_nat actualDeleteCount in
  (firstn d (skipn s array),
   firstn s array ++ items ++ skipn (s + d) array).

(** [arrayMove] of @dnd-kit/sortable, a dependency of the program:
<<
  const newArray = array.slice();
  newArray.splice(to < 0 ? newArray.length + to : to, 0,
                  newArray.splice(from, 1)[0]);
  return newArray;
>>
    The first argument of the outer [splice] is evaluated before the inner
    [splice] runs.  [removed[0]] is [undefined] when nothing was removed, so
    the slots of the result are [option]s: [None] is [undefined]. *)
Definition arrayMove {A : Type} (array : list A) (from to : Z) : list (option A) :=
  let newArray := array in
  let target :=
    (if to <? 0 then Z.of_nat (length newArray) + to else to)%Z in
  let '(removed, newArray) := splice newArray from 1 [] in
  let item := nth_error removed 0 in
  snd (splice (map Some newArray) target 0 [item]).

(** ** src/App.tsx: the song list *)

(** [handleRename] *)
Definition handleRename (id newName : jsstring) (songs : list Song.t)
    : list Song.t :=
  map (fun song =>
         if str_eqb (Song.id song) id then Song.with_name song newName else song)
      songs.

Module DragEndEvent.
(** [active.id] and, when the item was dropped on a target, [over.id]. *)
Record t := mk { active : jsstring; over : option jsstring }.
End DragEndEvent.

(** [handleDragEnd]: the new value of [songs]. *)
Definition handleDragEnd (event : DragEndEvent.t) (songs : list Song.t)
    : list (option Song.t) :=
  match DragEndEvent.over event with
  | Some over_id =>
      if negb (str_eqb (DragEndEvent.active event) over_id) then
        let items := songs in
        let oldIndex :=
          findIndex (fun i => str_eqb (Song.id i) (DragEndEvent.active event)) items in
        let newIndex :=
          findIndex (fun i => str_eqb (Song.id i) over_id) items in
        arrayMove items oldIndex newIndex
      else map Some songs
  | None => map Some songs
  end.

(** [moveSong(id, targetId)] of the specification: the reorder intent
    [(id, targetId)] reported by the drag surface. *)
Definition moveSong (id targetId : jsstring) (songs : list Song.t)
    : list (option Song.t) :=
  handleDragEnd {| DragEndEvent.active := id; DragEndEvent.over := Some targetId |} songs.

(** Where slot [i] of the list after a move from [f] to [t] comes from. *)
Definition source_index (f t i : nat) : nat :=
  if Nat.eqb i t then f
  else if Nat.leb f i && Nat.ltb i t then S i
  else if Nat.ltb t i && Nat.leb i f then Nat.pred i
  else i.

(** ** src/components/SongCard.tsx: inline rename *)

Module Card.
(** The component's local state. *)
Record t := mk { isEditing : bool; editName : jsstring }.
End Card.

(** [handleSaveName] on the card of [song]: the call of [onRename], if any,
    and the card's state afterwards. *)
Definition handleSaveName (song : Song.t) (card : Card.t)
    : option (jsstring * jsstring) * Card.t :=
  if truthy (trim (Card.editName card)) then
    (Some (Song.id song, Card.editName card),
     {| Card.isEditing := false; Card.editName := Card.editName card |})
  else
    (None,
     {| Card.isEditing := false; Card.editName := Song.name song |}).

(** [renameSong(id, newName)] of the specification: [newName] committed in
    the card of the song [id], then [onRename = handleRename]. *)
Definition renameSong (id newName : jsstring) (songs : list Song.t)
    : list Song.t :=
  if truthy (trim newName) then handleRename id newName songs else songs.

(** ** Uploads *)

(** The values [crypto.randomUUID()] and [URL.createObjectURL(file)] will
    return, call after call. *)
Record World := mkWorld {
  uuids : nat -> jsstring;
  objectURLs : nat -> jsstring
}.

Definition M (A : Type) : Type := World -> A * World.

Definition ret {A : Type} (a : A) : M A := fun w => (a, w).

Definition bind {A B : Type} (m : M A) (k : A -> M B) : M B :=
  fun w => let '(a, w') := m w in k a w'.

Notation "x <- m ;; k" := (bind m (fun x => k))
  (at level 61, m at next level, right associativity).

Definition randomUUID : M jsstring :=
  fun w => (uuids w 0,
            {| uuids := fun n => uuids w (S n); objectURLs := objectURLs w |}).

Definition createObjectURL (file : File.t) : M jsstring :=
  fun w => (objectURLs w 0,
            {| uuids := uuids w; objectURLs := fun n => objectURLs w (S n) |}).

(** [array.map(f)] with an effectful callback, left to right. *)
Fixpoint mapM {A B : Type} (f : A -> M B) (l : list A) : M (list B) :=
  match l with
  | [] => ret []
  | x :: tl => y <- f x ;; ys <- mapM f tl ;; ret (y :: ys)
  end.

(** [handleFilesAdded]: the new value of [songs]. *)
Definition handleFilesAdded (files : list File.t) (songs : list Song.t)
    : M (list Song.t) :=
  newSongs <-
    mapM (fun file =>
            id <- randomUUID ;;
            let name := remove_extension (File.name file) in
            url <- createObjectURL file ;;
            ret {| Song.id := id; Song.name := name;
                   Song.url := url; Song.file := file |})
         files ;;
  ret (songs ++ newSongs).

(** [addSongs(files)] of the specification. *)
Definition addSongs := handleFilesAdded.

(** A sequence of [addSongs] calls, one per element of [calls]. *)
Fixpoint addSongs_all (calls : list (list File.t)) (songs : list Song.t)
    : M (list Song.t) :=
  match calls with
  | [] => ret songs
  | files :: rest => songs' <- addSongs files songs ;; addSongs_all rest songs'
  end.

(** The display name derived from a file. *)
Definition song_name_of (file : File.t) : jsstring :=
  remove_extension (File.name file).

(** ** Positions in the list *)

(** [items.findIndex((i) => i.id === id)] *)
Definition index_of (id : jsstring) (items : list Song.t) : Z :=
  findIndex (fun i => str_eqb (Song.id i) id) items.

(** The list without its element at [f], and the list with [x] put at [t]. *)
Definition remove_at {A : Type} (f : nat) (l : list A) : list A :=
  firstn f l ++ skipn (S f) l.

Definition insert_at {A : Type} (t : nat) (x : A) (l : list A) : list A :=
  firstn t l ++ x :: skipn t l.

(** ** src/components/SongCard.tsx: the card of a song *)

(** [const isCurrentSong = playerState.currentSongId === song.id] *)
Definition isCurrentSong (song : Song.t) (playerState : PlayerState.t) : bool :=
  is_current playerState (Song.id song).

(** [const isPlaying = isCurrentSong && playerState.isPlaying] *)
Definition card_isPlaying (song : Song.t) (playerState : PlayerState.t) : bool :=
  isCurrentSong song playerState && isPlaying playerState.

(** The play/pause button of the card:
    [onClick={() => isPlaying ? onPause() : onPlay(song.id)}], with
    [onPause = handlePause] and [onPlay = handlePlay]. *)
Definition cardButtonClick (songs : list Song.t) (playerState : PlayerState.t)
    (song : Song.t) : Effect :=
  if card_isPlaying song playerState then handlePause
  else handlePlay songs playerState (Song.id song).

(** [useState(false)] and [useState(song.name)] *)
Definition initialCard (song : Song.t) : Card.t :=
  {| Card.isEditing := false; Card.editName := Song.name song |}.

(** The pencil button: [setIsEditing(true)]. *)
Definition startEditing (card : Card.t) : Card.t :=
  {| Card.isEditing := true; Card.editName := Card.editName card |}.

(** The input's [onChange]: [setEditName(e.target.value)]. *)
Definition typeName (value : jsstring) (card : Card.t) : Card.t :=
  {| Card.isEditing := Card.isEditing card; Card.editName := value |}.

(** [handleKeyDown]: the call of [onRename], if any, and the card's state
    afterwards. *)
Definition handleKeyDown (key : jsstring) (song : Song.t) (card : Card.t)
    : option (jsstring * jsstring) * Card.t :=
  let '(call, card1) :=
    if str_eqb key (js "Enter") then handleSaveName song card
    else (None, card) in
  if str_eqb key (js "Escape") then
    (call, {| Card.isEditing := false; Card.editName := Song.name song |})
  else (call, card1).

(** What a call of [onRename] reported by a card does to the list. *)
Definition apply_rename (call : option (jsstring * jsstring))
    (songs : list Song.t) : list Song.t :=
  match call with
  | Some (id, newName) => handleRename id newName songs
  | None => songs
  end.

(** [download={song.name + ".mp3"}] *)
Definition download_name (song : Song.t) : jsstring :=
  Song.name song ++ js ".mp3".

(** ** src/components/UploadZone.tsx *)

(** [handleFileChange] on an input whose [files] is [null] or a list: the
    call of [onFilesAdded], if any, and the value written to
    [e.target.value], if any. *)
Definition handleFileChange (files : option (list File.t))
    : option (list File.t) * option jsstring :=
  match files with
  | Some fs =>
      if 0 <? length fs then (Some fs, Some []) else (None, None)
  | None => (None, None)
  end.

(** ** The application as a whole *)

Module App.
(** [songs], [playerState], the [src] of [audioRef.current], and the world
    the next ids and urls come from. *)
Record t := mk {
  songs : list Song.t;
  playerState : PlayerState.t;
  audio_src : jsstring;
  world : World
}.
End App.

(** The first render: no songs, the initial player state, [new Audio()]. *)
Definition initialApp (w : World) : App.t :=
  {| App.songs := []; App.playerState := initialPlayerState;
     App.audio_src := []; App.world := w |}.

Definition with_effect (eff : Effect) (app : App.t) : App.t :=
  {| App.songs := App.songs app;
     App.playerState := snd eff (App.playerState app);
     App.audio_src := src_after (fst eff) (App.audio_src app);
     App.world := App.world app |}.

Definition with_songs (songs : list Song.t) (app : App.t) : App.t :=
  {| App.songs := songs;
     App.playerState := App.playerState app;
     App.audio_src := App.audio_src app;
     App.world := App.world app |}.

(** The songs in an array that has no [undefined] slot. *)
Fixpoint all_defined {A : Type} (slots : list (option A)) : option (list A) :=
  match slots with
  | [] => Some []
  | Some x :: tl => option_map (cons x) (all_defined tl)
  | None :: _ => None
  end.

Inductive AppEvent : Type :=
| AePlay (id : jsstring)
| AePause
| AeSeek (time : float)
| AeTimeUpdate (audio_currentTime : float)
| AeLoadedMetadata (audio_duration : float)
| AeEnded
| AeCardButton (song : Song.t)
| AeRename (id newName : jsstring)
| AeFileChange (files : option (list File.t))
| AeDragEnd (event : DragEndEvent.t).

(** One event handled to completion.  [App] renders the [DndContext], and
    with it [handleDragEnd], only when [songs.length] is not 0.  [None] is a
    list with an [undefined] slot, which is no [Song[]]. *)
Definition app_step (e : AppEvent) (app : App.t) : option App.t :=
  match e with
  | AePlay id =>
      Some (with_effect (handlePlay (App.songs app) (App.playerState app) id) app)
  | AePause => Some (with_effect handlePause app)
  | AeSeek time => Some (with_effect (handleSeek time) app)
  | AeTimeUpdate t => Some (with_effect (onTimeUpdate t) app)
  | AeLoadedMetadata d => Some (with_effect (onLoadedMetadata d) app)
  | AeEnded => Some (with_effect onEnded app)
  | AeCardButton song =>
      Some (with_effect
              (cardButtonClick (App.songs app) (App.playerState app) song) app)
  | AeRename id newName =>
      Some (with_songs (handleRename id newName (App.songs app)) app)
  | AeFileChange files =>
      match fst (handleFileChange files) with
      | Some fs =>
          let '(songs', w') := handleFilesAdded fs (App.songs app) (App.world app) in
          Some {| App.songs := songs';
                  App.playerState := App.playerState app;
                  App.audio_src := App.audio_src app;
                  App.world := w' |}
      | None => Some app
      end
  | AeDragEnd event =>
      match App.songs app with
      | [] => Some app
      | _ :: _ =>
          option_map (fun songs' => with_songs songs' app)
                     (all_defined (handleDragEnd event (App.songs app)))
      end
  end.

Fixpoint app_run (evs : list AppEvent) (app : App.t) : option App.t :=
  match evs with
  | [] => Some app
  | e :: rest =>
      match app_step e app with
      | Some app' => app_run rest app'
      | None => None
      end
  end.

(** The position [splice] takes for an index of [findIndex]: a negative
    index counts from the end. *)
Definition position (i : Z) (len : nat) : nat :=
  Z.to_nat (if (i <? 0)%Z then Z.of_nat len + i else i)%Z.

(** No two calls of [crypto.randomUUID()] return the same id. *)
Definition fresh_uuids (w : World) : Prop :=
  forall i j, uuids w i = uuids w j -> i = j.

(** What ties the player and the audio element to the list: a playing
    player has a current song, the current song is in the list and the
    audio element holds its url, and before the first song is played the
    element has no source. *)
Definition player_invariant (songs : list Song.t) (ps : PlayerState.t)
    (src : jsstring) : Prop :=
  (isPlaying ps = true -> currentSongId ps <> None) /\
  (forall id, currentSongId ps = Some id ->
     exists s, In s songs /\ Song.id s = id /\ src = Song.url s) /\
  (currentSongId ps = None -> src = []).

(** The ids of the list are ids the world [w0] has handed out, and
    [world] is [w0] after those draws. *)
Definition ids_drawn_from (w0 : World) (songs : list Song.t) (world : World)
    : Prop :=
  exists k,
    (forall i, uuids world i = uuids w0 (k + i)) /\
    (forall s, In s songs -> exists j, j < k /\ Song.id s = uuids w0 j).

Definition app_invariant (w0 : World) (app : App.t) : Prop :=
  unique_ids (App.songs app) /\
  ids_drawn_from w0 (App.songs app) (App.world app) /\
  player_invariant (App.songs app) (App.playerState app) (App.audio_src app).

(** Is the event a call of [onRename]? *)
Definition is_rename (e : AppEvent) : bool :=
  match e with AeRename _ _ => true | _ => false end.

(** ** Sample data *)

Definition sample_file (n : String.string) : File.t :=
  {| File.name := js n; File.bytes := [] |}.

Definition sample_song (i n : String.string) : Song.t :=
  {| Song.id := js i; Song.name := js n;
     Song.url := js (String.append "blob:" i);
     Song.file := sample_file (String.append n ".mp3") |}.

Definition songA : Song.t := sample_song "a" "Jingle Bells".
Definition songB : Song.t := sample_song "b" "Noite Feliz".
Definition songC : Song.t := sample_song "c" "O Tannenbaum".

Definition sample_world : World :=
  {| uuids := fun n => js "uuid-" ++ [N.of_nat n];
     objectURLs := fun n => js "blob:" ++ [N.of_nat n] |}.

(** * Properties *)

(** ** Strings and lookups *)

Lemma str_eqb_eq (a b : jsstring) : str_eqb a b = true <-> a = b.
Proof.
  revert b; induction a as [|x a IH]; intros [|y b]; simpl;
    try (split; [discriminate | congruence]); try tauto.
  rewrite andb_true_iff, N.eqb_eq, IH.
  split; [intros [-> ->]; reflexivity | intros H; inversion H; auto].
Qed.

Lemma str_eqb_refl (a : jsstring) : str_eqb a a = true.
Proof. apply str_eqb_eq; reflexivity. Qed.

Lemma str_eqb_neq (a b : jsstring) : str_eqb a b = false <-> a <> b.
Proof.
  rewrite <- str_eqb_eq. destruct (str_eqb a b); split; congruence.
Qed.

Lemma find_song_id (songs : list Song.t) (id : jsstring) (s : Song.t) :
  find_song songs id = Some s -> In s songs /\ Song.id s = id.
Proof.
  unfold find_song; intros H. apply find_some in H as [Hin Heq].
  split; [assumption | now apply str_eqb_eq].
Qed.

Lemma find_song_present (songs : list Song.t) (s : Song.t) :
  In s songs -> exists s', find_song songs (Song.id s) = Some s'.
Proof.
  intros Hin. unfold find_song.
  destruct (find _ songs) as [s'|] eqn:E; [now exists s'|].
  pose proof (find_none _ _ E s Hin) as H; simpl in H.
  now rewrite str_eqb_refl in H.
Qed.

Lemma find_song_unique (songs : list Song.t) (s : Song.t) :
  unique_ids songs -> In s songs -> find_song songs (Song.id s) = Some s.
Proof.
  unfold unique_ids, find_song.
  induction songs as [|x tl IH]; simpl; intros Hnd Hin; [contradiction|].
  inversion Hnd as [|? ? Hnotin Hnd']; subst.
  destruct (str_eqb (Song.id x) (Song.id s)) eqn:E.
  - apply str_eqb_eq in E. destruct Hin as [->|Hin]; [reflexivity|].
    exfalso; apply Hnotin. rewrite E. now apply in_map.
  - destruct Hin as [->|Hin]; [now rewrite str_eqb_refl in E | now apply IH].
Qed.

(** ** Player controller *)

Lemma is_current_spec (ps : PlayerState.t) (id : jsstring) :
  is_current ps id = true <-> currentSongId ps = Some id.
Proof.
  unfold is_current. destruct (currentSongId ps) as [c|].
  - rewrite str_eqb_eq. split; congruence.
  - split; discriminate.
Qed.

Lemma dispatch_duration (e : PlayerEvent) (s : PlayerState.t) :
  is_loadedmetadata e = false -> duration (dispatch e s) = duration s.
Proof.
  destruct e; simpl; try discriminate; intros _; try reflexivity.
  unfold dispatch; simpl; unfold handlePlay.
  destruct (find_song songs id); [destruct (is_current s id)|]; reflexivity.
Qed.

Lemma run_duration (evs : list PlayerEvent) (s : PlayerState.t) :
  forallb (fun e => negb (is_loadedmetadata e)) evs = true ->
  duration (run evs s) = duration s.
Proof.
  revert s; induction evs as [|e evs IH]; simpl; intros s H; [reflexivity|].
  apply andb_true_iff in H as [He Hevs].
  unfold run in *; simpl. rewrite (IH _ Hevs).
  apply dispatch_duration. now destruct (is_loadedmetadata e).
Qed.

(** C1. In every state reachable from the initial [PlayerState] by play,
    pause, seek and the audio element's notifications, over any song lists,
    [isPlaying = true] implies that [currentSongId] is not null. *)
Theorem playing_implies_current_song (s : PlayerState.t) :
  reachable s -> isPlaying s = true -> currentSongId s <> None.
Proof.
  induction 1 as [|s e Hs IH]; [discriminate|].
  destruct e; unfold dispatch; simpl; try discriminate; try exact IH.
  unfold handlePlay.
  destruct (find_song songs id); [|exact IH].
  destruct (is_current s id) eqn:E; simpl; intros _; [|discriminate].
  apply is_current_spec in E. rewrite E. discriminate.
Qed.

Lemma playing_implies_current_song_witness :
  currentSongId (play [songA; songB] (js "b") initialPlayerState) <> None.
Proof.
  apply playing_implies_current_song.
  - exact (reach_step initialPlayerState (EvPlay [songA; songB] (js "b")) reach_init).
  - reflexivity.
Defined.

(** C6. With [currentSongId] at song A, playing another song B of the list
    sets [currentSongId] to B's id, [isPlaying] to true and [currentTime]
    to 0, whatever the previous [currentTime]; the audio element's source
    becomes the url of the song the list holds under B's id, which is B's
    url in a list with unique ids. *)
Theorem play_switches_song (songs : list Song.t) (A B : Song.t)
    (ps : PlayerState.t) :
  In B songs ->
  currentSongId ps = Some (Song.id A) ->
  Song.id B <> Song.id A ->
  let ps' := play songs (Song.id B) ps in
  let cmds := play_commands songs (Song.id B) ps in
  currentSongId ps' = Some (Song.id B) /\
  isPlaying ps' = true /\
  currentTime ps' = 0%float /\
  (exists B', find_song songs (Song.id B) = Some B' /\
              cmds = [CmdSetSrc (Song.url B'); CmdLoad; CmdPlay] /\
              forall src0, src_after cmds src0 = Song.url B') /\
  (unique_ids songs -> forall src0, src_after cmds src0 = Song.url B).
Proof.
  intros Hin Hcur Hne.
  assert (Hnc : is_current ps (Song.id B) = false).
  { destruct (is_current ps (Song.id B)) eqn:E; [|reflexivity].
    apply is_current_spec in E. congruence. }
  destruct (find_song_present songs B Hin) as [B' HB'].
  unfold play, play_commands, dispatch, commands; simpl.
  unfold handlePlay. rewrite HB', Hnc; simpl.
  repeat split.
  - exists B'. repeat split.
  - intros Hu src0. rewrite (find_song_unique songs B Hu Hin) in HB'.
    now inversion HB'.
Qed.

Lemma play_switches_song_witness :
  let ps := {| isPlaying := true; currentSongId := Some (js "a");
               currentTime := 42%float; duration := 180%float |} in
  currentSongId (play [songA; songB] (js "b") ps) = Some (js "b") /\
  isPlaying (play [songA; songB] (js "b") ps) = true /\
  currentTime (play [songA; songB] (js "b") ps) = 0%float /\
  src_after (play_commands [songA; songB] (js "b") ps) (js "blob:a") = js "blob:b".
Proof.
  intros ps.
  assert (Hin : In songB [songA; songB]) by (simpl; auto).
  assert (Hcur : currentSongId ps = Some (Song.id songA)) by reflexivity.
  assert (Hne : Song.id songB <> Song.id songA) by (vm_compute; discriminate).
  assert (Hu : unique_ids [songA; songB]).
  { unfold unique_ids; simpl. repeat constructor; simpl.
    - intros [H|[]]; vm_compute in H; discriminate.
    - intros []. }
  destruct (play_switches_song [songA; songB] songA songB ps Hin Hcur Hne)
    as (H1 & H2 & H3 & _ & H5).
  exact (conj H1 (conj H2 (conj H3 (H5 Hu (js "blob:a"))))).
Defined.

(** C7. Playing the song that is already current, when the list holds it,
    sets [isPlaying] to true and leaves [currentSongId], [currentTime] and
    [duration] as they were; the audio element only receives [play()], its
    source is neither assigned nor reloaded. *)
Theorem play_resumes_current (songs : list Song.t) (id : jsstring)
    (ps : PlayerState.t) :
  (exists s, In s songs /\ Song.id s = id) ->
  currentSongId ps = Some id ->
  let ps' := play songs id ps in
  let cmds := play_commands songs id ps in
  isPlaying ps' = true /\
  currentSongId ps' = currentSongId ps /\
  currentTime ps' = currentTime ps /\
  duration ps' = duration ps /\
  cmds = [CmdPlay] /\
  reloads cmds = false /\
  forall src0, src_after cmds src0 = src0.
Proof.
  intros (s & Hin & <-) Hcur.
  destruct (find_song_present songs s Hin) as [s' Hs'].
  apply is_current_spec in Hcur.
  unfold play, play_commands, dispatch, commands; simpl.
  unfold handlePlay. rewrite Hs', Hcur; simpl.
  repeat split.
Qed.

Lemma play_resumes_current_witness :
  let ps := {| isPlaying := false; currentSongId := Some (js "a");
               currentTime := 42%float; duration := 180%float |} in
  isPlaying (play [songA; songB] (js "a") ps) = true /\
  currentTime (play [songA; songB] (js "a") ps) = 42%float /\
  play_commands [songA; songB] (js "a") ps = [CmdPlay].
Proof.
  intros ps.
  assert (Hex : exists s, In s [songA; songB] /\ Song.id s = js "a").
  { exists songA. split; [simpl; auto | reflexivity]. }
  assert (Hcur : currentSongId ps = Some (js "a")) by reflexivity.
  destruct (play_resumes_current [songA; songB] (js "a") ps Hex Hcur)
    as (H1 & _ & H3 & _ & H5 & _).
  exact (conj H1 (conj H3 H5)).
Defined.

(** C8. The audio element's [ended] notification sets [isPlaying] to false
    and [currentTime] to 0, and leaves [currentSongId] and [duration] as
    they were, in every state. *)
Theorem ended_stops_and_rewinds (ps : PlayerState.t) :
  isPlaying (dispatch EvEnded ps) = false /\
  currentTime (dispatch EvEnded ps) = 0%float /\
  currentSongId (dispatch EvEnded ps) = currentSongId ps /\
  duration (dispatch EvEnded ps) = duration ps /\
  snd onEnded ps = dispatch EvEnded ps.
Proof. repeat split. Qed.

(** C10. Playing a song B of the list that is not the current one leaves
    [duration] as it was; it stays so through any later events other than
    [loadedmetadata], and [loadedmetadata] overwrites it with the audio
    element's duration. *)
Theorem play_keeps_duration (songs : list Song.t) (B : Song.t)
    (ps : PlayerState.t) :
  In B songs ->
  currentSongId ps <> Some (Song.id B) ->
  let ps' := play songs (Song.id B) ps in
  currentSongId ps' = Some (Song.id B) /\
  duration ps' = duration ps /\
  (forall evs,
      forallb (fun e => negb (is_loadedmetadata e)) evs = true ->
      duration (run evs ps') = duration ps) /\
  (forall st d, duration (dispatch (EvLoadedMetadata d) st) = d).
Proof.
  intros Hin Hcur ps'.
  assert (Hd : duration ps' = duration ps)
    by (apply dispatch_duration; reflexivity).
  repeat split; try assumption.
  - destruct (find_song_present songs B Hin) as [B' HB'].
    assert (Hnc : is_current ps (Song.id B) = false).
    { destruct (is_current ps (Song.id B)) eqn:E; [|reflexivity].
      now apply is_current_spec in E. }
    unfold ps', play, dispatch; simpl. unfold handlePlay.
    now rewrite HB', Hnc.
  - intros evs Hevs. now rewrite run_duration.
Qed.

Lemma play_keeps_duration_witness :
  let ps := {| isPlaying := true; currentSongId := Some (js "a");
               currentTime := 42%float; duration := 180%float |} in
  duration (play [songA; songB] (js "b") ps) = 180%float /\
  duration (run [EvTimeUpdate 1%float; EvPause; EvEnded]
                (play [songA; songB] (js "b") ps)) = 180%float /\
  duration (dispatch (EvLoadedMetadata 95%float)
                     (play [songA; songB] (js "b") ps)) = 95%float.
Proof.
  intros ps.
  assert (Hin : In songB [songA; songB]) by (simpl; auto).
  assert (Hcur : currentSongId ps <> Some (Song.id songB))
    by (vm_compute; discriminate).
  destruct (play_keeps_duration [songA; songB] songB ps Hin Hcur) as (_ & H2 & H3 & H4).
  exact (conj H2 (conj (H3 [EvTimeUpdate 1%float; EvPause; EvEnded] eq_refl)
                      (H4 _ 95%float))).
Defined.

(** ** Rename *)

Lemma trimStart_nil (s : jsstring) :
  trimStart s = [] <-> forallb is_white_space s = true.
Proof.
  induction s as [|c s IH]; simpl; [tauto|].
  destruct (is_white_space c); simpl; [exact IH|].
  split; discriminate.
Qed.

Lemma trimStart_blank (s : jsstring) :
  forallb is_white_space (trimStart s) = true -> trimStart s = [].
Proof.
  induction s as [|c s IH]; simpl; [reflexivity|].
  destruct (is_white_space c) eqn:E; [exact IH|].
  simpl. rewrite E. discriminate.
Qed.

Lemma forallb_rev {A : Type} (p : A -> bool) (l : list A) :
  forallb p (rev l) = forallb p l.
Proof.
  induction l as [|x l IH]; simpl; [reflexivity|].
  rewrite forallb_app, IH; simpl. rewrite andb_true_r. apply andb_comm.
Qed.

(** A name trims to the empty string exactly when it is empty or holds
    only white space. *)
Lemma trim_nil (s : jsstring) :
  trim s = [] <-> forallb is_white_space s = true.
Proof.
  unfold trim, trimEnd. split.
  - intros H. apply trimStart_nil.
    assert (H' : trimStart (rev (trimStart s)) = []).
    { apply (f_equal (@rev N)) in H. now rewrite rev_involutive in H. }
    apply trimStart_nil in H'. rewrite forallb_rev in H'.
    now apply trimStart_blank.
  - intros H. apply trimStart_nil in H. now rewrite H.
Qed.

Lemma truthy_false (s : jsstring) : truthy s = false <-> s = [].
Proof. destruct s; simpl; split; congruence. Qed.

Lemma handleRename_absent (id newName : jsstring) (songs : list Song.t) :
  (forall s, In s songs -> Song.id s <> id) ->
  handleRename id newName songs = songs.
Proof.
  unfold handleRename. induction songs as [|x tl IH]; simpl; intros H;
    [reflexivity|].
  rewrite IH by (intros s Hs; apply H; now right).
  assert (E : str_eqb (Song.id x) id = false)
    by (apply str_eqb_neq, H; now left).
  now rewrite E.
Qed.

(** [renameSong] is what a commit in the card of [song] does to the list. *)
Lemma renameSong_from_card (song : Song.t) (card : Card.t)
    (songs : list Song.t) :
  renameSong (Song.id song) (Card.editName card) songs =
  match fst (handleSaveName song card) with
  | Some (id, newName) => handleRename id newName songs
  | None => songs
  end.
Proof.
  unfold renameSong, handleSaveName.
  now destruct (truthy (trim (Card.editName card))).
Qed.

(** C4, as the code has it. When the new name does not trim to the empty
    string, every song with the id gets the name exactly as it was typed,
    white space included, and the other songs are left as they were. *)
Theorem rename_stores_name_as_typed (songs : list Song.t)
    (id newName : jsstring) :
  trim newName <> [] ->
  forall i s, nth_error songs i = Some s ->
    (Song.id s = id ->
     nth_error (renameSong id newName songs) i
     = Some (Song.with_name s newName)) /\
    (Song.id s <> id ->
     nth_error (renameSong id newName songs) i = Some s).
Proof.
  intros Hne i s Hi. unfold renameSong.
  destruct (truthy (trim newName)) eqn:E;
    [|apply truthy_false in E; contradiction].
  unfold handleRename. rewrite nth_error_map, Hi; simpl.
  split; intros H.
  - apply str_eqb_eq in H. now rewrite H.
  - apply str_eqb_neq in H. now rewrite H.
Qed.

Lemma rename_stores_name_as_typed_witness :
  option_map Song.name
    (nth_error (renameSong (js "b") (js "  Carol  ") [songA; songB]) 1)
  = Some (js "  Carol  ").
Proof.
  assert (Hne : trim (js "  Carol  ") <> []) by (vm_compute; discriminate).
  assert (Hi : nth_error [songA; songB] 1 = Some songB) by reflexivity.
  destruct (rename_stores_name_as_typed [songA; songB] (js "b")
              (js "  Carol  ") Hne 1%nat songB Hi) as [H _].
  rewrite (H eq_refl). reflexivity.
Defined.

(** C4 as stated fails: the name stored for ["  Carol  "] is not ["Carol"]. *)
Lemma rename_stores_trimmed_counterexample :
  trim (js "  Carol  ") = js "Carol" /\
  map Song.name (renameSong (js "a") (js "  Carol  ") [songA])
  <> [js "Carol"].
Proof. split; [reflexivity | vm_compute; discriminate]. Qed.

(** C5. A new name that is empty or holds only white space (it trims to the
    empty string) leaves the list, and so every name, as it was; and any new
    name leaves the list as it was when no song has the id. *)
Theorem rename_ignored (songs : list Song.t) (id newName : jsstring) :
  trim newName = [] \/ (forall s, In s songs -> Song.id s <> id) ->
  renameSong id newName songs = songs.
Proof.
  unfold renameSong. intros [H|H].
  - now rewrite H.
  - destruct (truthy (trim newName)); [|reflexivity].
    now apply handleRename_absent.
Qed.

Lemma rename_ignored_witness :
  renameSong (js "a") [] [songA; songB] = [songA; songB] /\
  renameSong (js "a") (js "   ") [songA; songB] = [songA; songB] /\
  renameSong (js "z") (js "Carol") [songA; songB] = [songA; songB].
Proof.
  repeat apply conj.
  - apply rename_ignored. left. reflexivity.
  - apply rename_ignored. left. reflexivity.
  - apply rename_ignored. right. intros s [<-|[<-|[]]]; vm_compute; discriminate.
Defined.

(** ** Uploads *)

Lemma remove_extension_strips (base ext : jsstring) :
  ext <> [] -> forallb not_slash_dot ext = true ->
  remove_extension (base ++ DOT :: ext) = base.
Proof.
  intros Hne Hext. induction base as [|c base IH]; simpl.
  - rewrite Hext. destruct ext; [contradiction | reflexivity].
  - rewrite IH.
    assert (E : forallb not_slash_dot (base ++ DOT :: ext) = false).
    { rewrite forallb_app; simpl. apply andb_false_r. }
    rewrite E, !andb_false_r. reflexivity.
Qed.

Lemma remove_extension_keeps (s : jsstring) :
  (forall base ext, s = base ++ DOT :: ext ->
                    ext = [] \/ forallb not_slash_dot ext = false) ->
  remove_extension s = s.
Proof.
  induction s as [|c tl IH]; intros H; [reflexivity|].
  cbn [remove_extension].
  destruct (matches_extension (c :: tl)) eqn:E.
  - simpl in E. apply andb_true_iff in E as [E Hall].
    apply andb_true_iff in E as [Hc Htl]. apply N.eqb_eq in Hc; subst c.
    destruct (H [] tl eq_refl) as [->|Hf]; [discriminate | congruence].
  - f_equal. apply IH. intros base ext ->.
    apply (H (c :: base) ext). reflexivity.
Qed.

Lemma mapM_cons_fst {A B : Type} (f : A -> M B) (x : A) (tl : list A)
    (w : World) :
  fst (mapM f (x :: tl) w)
  = fst (f x w) :: fst (mapM f tl (snd (f x w))).
Proof.
  simpl. unfold bind, ret. destruct (f x w) as [y w']; simpl.
  now destruct (mapM f tl w').
Qed.

Lemma mapM_new_songs (files : list File.t) (w : World) :
  let newSongs :=
    fst (mapM (fun file =>
                 id <- randomUUID ;;
                 let name := remove_extension (File.name file) in
                 url <- createObjectURL file ;;
                 ret {| Song.id := id; Song.name := name;
                        Song.url := url; Song.file := file |})
              files w) in
  map Song.file newSongs = files /\
  map Song.name newSongs = map song_name_of files.
Proof.
  cbv zeta. revert w; induction files as [|f files IH]; intros w; [now simpl|].
  rewrite mapM_cons_fst. cbn [map].
  match goal with |- context [mapM ?g files ?w'] =>
    destruct (IH w') as [IHf IHn] end.
  split; f_equal; assumption.
Qed.

Lemma addSongs_appends (files : list File.t) (songs : list Song.t) (w : World) :
  exists newSongs,
    fst (addSongs files songs w) = songs ++ newSongs /\
    map Song.file newSongs = files /\
    map Song.name newSongs = map song_name_of files.
Proof.
  unfold addSongs, handleFilesAdded, bind at 1.
  pose proof (mapM_new_songs files w) as H; simpl in H.
  match goal with |- context [mapM ?g files w] =>
    destruct (mapM g files w) as [ys w'] end.
  exists ys. simpl in *. tauto.
Qed.

Lemma addSongs_all_appends (calls : list (list File.t)) (songs : list Song.t)
    (w : World) :
  exists newSongs,
    fst (addSongs_all calls songs w) = songs ++ newSongs /\
    map Song.file newSongs = concat calls /\
    map Song.name newSongs = map song_name_of (concat calls).
Proof.
  revert songs w; induction calls as [|files rest IH]; intros songs w; simpl.
  - exists []. now rewrite app_nil_r.
  - unfold bind.
    destruct (addSongs_appends files songs w) as (xs & Hx & Hf & Hn).
    destruct (addSongs files songs w) as [songs' w']; simpl in Hx; subst songs'.
    destruct (IH (songs ++ xs) w') as (ys & Hy & Hf' & Hn').
    exists (xs ++ ys). rewrite Hy, app_assoc, !map_app, Hf, Hf', Hn, Hn'.
    auto.
Qed.

(** C9. Each [addSongs] call appends one new song per file at the end of
    the list, in the order of the files, and leaves the songs already there
    as they were; after any sequence of calls from the empty list the list
    holds one song per file passed, in call order and then file order.  A
    new song's name is the file name without its extension: a last dot
    followed by one or more code units other than [/] and [.] is cut off
    with what follows it, and a name with no such ending is kept whole. *)
Theorem addSongs_appends_in_order :
  (forall files songs w, exists newSongs,
      fst (addSongs files songs w) = songs ++ newSongs /\
      length newSongs = length files /\
      map Song.file newSongs = files /\
      map Song.name newSongs = map song_name_of files) /\
  (forall calls w,
      let songs := fst (addSongs_all calls [] w) in
      length songs = length (concat calls) /\
      map Song.file songs = concat calls /\
      map Song.name songs = map song_name_of (concat calls)) /\
  (forall file base ext,
      File.name file = base ++ DOT :: ext ->
      ext <> [] -> forallb not_slash_dot ext = true ->
      song_name_of file = base) /\
  (forall file,
      (forall base ext, File.name file = base ++ DOT :: ext ->
                        ext = [] \/ forallb not_slash_dot ext = false) ->
      song_name_of file = File.name file).
Proof.
  repeat apply conj.
  - intros files songs w.
    destruct (addSongs_appends files songs w) as (xs & Hx & Hf & Hn).
    exists xs. repeat split; try assumption.
    now rewrite <- Hf, length_map.
  - intros calls w songs.
    destruct (addSongs_all_appends calls [] w) as (xs & Hx & Hf & Hn).
    simpl in Hx. fold songs in Hx. rewrite Hx.
    repeat split; try assumption.
    now rewrite <- Hf, length_map.
  - intros file base ext Hname Hne Hext. unfold song_name_of.
    rewrite Hname. now apply remove_extension_strips.
  - intros file H. unfold song_name_of. now apply remove_extension_keeps.
Qed.

Lemma addSongs_appends_in_order_witness :
  song_name_of (sample_file "Jingle Bells.mp3") = js "Jingle Bells" /\
  song_name_of (sample_file "README") = js "README".
Proof.
  destruct addSongs_appends_in_order as (_ & _ & Hstrip & Hkeep).
  split.
  - apply (Hstrip (sample_file "Jingle Bells.mp3") (js "Jingle Bells") (js "mp3")).
    + reflexivity.
    + discriminate.
    + reflexivity.
  - apply (Hkeep (sample_file "README")).
    intros base ext H. exfalso.
    assert (Hin : In DOT (File.name (sample_file "README")))
      by (rewrite H; apply in_elt).
    vm_compute in Hin. intuition discriminate.
Defined.

(** ** Reordering *)

Section Arrays.
Context {A : Type}.

Lemma findIndex_from_found (p : A -> bool) (l : list A) (i : Z) :
  (exists x, In x l /\ p x = true) ->
  exists n x,
    findIndex_from p l i = (i + Z.of_nat n)%Z /\
    nth_error l n = Some x /\ p x = true /\
    forall m y, m < n -> nth_error l m = Some y -> p y = false.
Proof.
  revert i; induction l as [|a l IH]; intros i (x & Hin & Hp);
    [contradiction|].
  simpl. destruct (p a) eqn:Ea.
  - exists 0, a. repeat split; [f_equal; lia | assumption | lia].
  - destruct Hin as [->|Hin]; [congruence|].
    destruct (IH (i + 1)%Z (ex_intro _ x (conj Hin Hp)))
      as (n & y & Hn & Hy & Hpy & Hlt).
    exists (S n), y. repeat split; [lia | assumption | assumption |].
    intros [|m] z Hm Hz; simpl in Hz; [congruence|].
    apply (Hlt m z); [lia | assumption].
Qed.

Lemma findIndex_from_absent (p : A -> bool) (l : list A) (i : Z) :
  (forall x, In x l -> p x = false) -> findIndex_from p l i = (-1)%Z.
Proof.
  revert i; induction l as [|a l IH]; intros i H; simpl; [reflexivity|].
  rewrite (H a) by now left. apply IH. intros x Hx. apply H. now right.
Qed.

Lemma findIndex_from_first (p : A -> bool) (l : list A) (i : Z) (n : nat)
    (x : A) :
  nth_error l n = Some x -> p x = true ->
  (forall m y, m < n -> nth_error l m = Some y -> p y = false) ->
  findIndex_from p l i = (i + Z.of_nat n)%Z.
Proof.
  revert i n; induction l as [|a l IH]; intros i [|n] Hn Hp Hlt;
    simpl in *; try discriminate.
  - inversion Hn; subst. rewrite Hp. lia.
  - rewrite (Hlt 0 a) by (simpl; auto; lia).
    rewrite (IH (i + 1)%Z n Hn Hp); [lia|].
    intros m y Hm Hy. apply (Hlt (S m) y); [lia | assumption].
Qed.

Lemma splice_in_range (l : list A) (s d : nat) (items : list A) :
  s + d <= length l ->
  splice l (Z.of_nat s) (Z.of_nat d) items
  = (firstn d (skipn s l), firstn s l ++ items ++ skipn (s + d) l).
Proof.
  intros H. unfold splice.
  destruct (Z.ltb_spec (Z.of_nat s) 0) as [Hneg|_]; [lia|].
  rewrite (Z.min_l (Z.of_nat s)) by lia.
  rewrite (Z.max_l (Z.of_nat d)) by lia.
  rewrite (Z.min_l (Z.of_nat d)) by lia.
  now rewrite !Nat2Z.id.
Qed.

Lemma skipn_nth_error (l : list A) (f : nat) (x : A) :
  nth_error l f = Some x -> skipn f l = x :: skipn (S f) l.
Proof.
  revert l; induction f as [|f IH]; intros [|a l] H; simpl in *;
    try discriminate.
  - now inversion H.
  - now apply IH.
Qed.

Lemma nth_error_remove_at (f : nat) (l : list A) (i : nat) :
  f < length l ->
  nth_error (remove_at f l) i = nth_error l (if i <? f then i else S i).
Proof.
  intros Hf. unfold remove_at.
  rewrite nth_error_app, length_firstn, Nat.min_l by lia.
  destruct (Nat.ltb_spec i f) as [Hi|Hi].
  - rewrite nth_error_firstn.
    now destruct (Nat.ltb_spec i f); [|lia].
  - rewrite nth_error_skipn. f_equal. lia.
Qed.

Lemma nth_error_insert_at (t : nat) (x : A) (l : list A) (i : nat) :
  t <= length l ->
  nth_error (insert_at t x l) i
  = if i <? t then nth_error l i
    else if i =? t then Some x else nth_error l (Nat.pred i).
Proof.
  intros Ht. unfold insert_at.
  rewrite nth_error_app, length_firstn, Nat.min_l by lia.
  destruct (Nat.ltb_spec i t) as [Hi|Hi].
  - rewrite nth_error_firstn.
    now destruct (Nat.ltb_spec i t); [|lia].
  - destruct (Nat.eqb_spec i t) as [->|Hne].
    + now rewrite Nat.sub_diag.
    + destruct (i - t) as [|k] eqn:E; [lia|]. simpl.
      rewrite nth_error_skipn. f_equal. lia.
Qed.

Lemma length_remove_at (f : nat) (l : list A) :
  f < length l -> S (length (remove_at f l)) = length l.
Proof.
  intros Hf. unfold remove_at.
  rewrite length_app, length_firstn, length_skipn. lia.
Qed.

Lemma remove_insert_permutation (f t : nat) (x : A) (l : list A) :
  nth_error l f = Some x ->
  Permutation l (insert_at t x (remove_at f l)).
Proof.
  intros Hf. unfold insert_at.
  rewrite <- Permutation_middle, firstn_skipn.
  unfold remove_at. rewrite Permutation_middle.
  now rewrite (firstn_skipn_middle f l Hf).
Qed.

End Arrays.

(** A move between two positions of the array takes the element out and
    puts it back at the target. *)
Lemma arrayMove_in_range {A : Type} (l : list A) (f t : nat) (x : A) :
  nth_error l f = Some x -> t < length l ->
  arrayMove l (Z.of_nat f) (Z.of_nat t)
  = map Some (insert_at t x (remove_at f l)).
Proof.
  intros Hf Ht.
  assert (Hlen : f < length l) by (apply nth_error_Some; congruence).
  unfold arrayMove.
  destruct (Z.ltb_spec (Z.of_nat t) 0) as [Hneg|_]; [lia|].
  change 1%Z with (Z.of_nat 1).
  rewrite splice_in_range by lia.
  rewrite (skipn_nth_error l f x Hf). cbn [firstn nth_error app].
  replace (f + 1) with (S f) by lia. fold (remove_at f l).
  change 0%Z with (Z.of_nat 0).
  pose proof (length_remove_at f l Hlen) as Hl'.
  rewrite splice_in_range by (rewrite length_map; lia).
  cbn [snd app]. rewrite Nat.add_0_r.
  unfold insert_at.
  now rewrite map_app, firstn_map, skipn_map.
Qed.

Lemma source_index_inj (f t i j : nat) :
  source_index f t i = source_index f t j -> i = j.
Proof.
  unfold source_index.
  destruct (Nat.eqb_spec i t), (Nat.eqb_spec j t),
    (Nat.leb_spec f i), (Nat.ltb_spec i t), (Nat.ltb_spec t i),
    (Nat.leb_spec i f), (Nat.leb_spec f j), (Nat.ltb_spec j t),
    (Nat.ltb_spec t j), (Nat.leb_spec j f); simpl; lia.
Qed.

Lemma nth_error_moved {A : Type} (l : list A) (f t : nat) (x : A) (i : nat) :
  nth_error l f = Some x -> t < length l ->
  nth_error (insert_at t x (remove_at f l)) i
  = nth_error l (source_index f t i).
Proof.
  intros Hf Ht.
  assert (Hlen : f < length l) by (apply nth_error_Some; congruence).
  pose proof (length_remove_at f l Hlen) as Hl'.
  rewrite nth_error_insert_at by lia.
  rewrite !nth_error_remove_at by assumption.
  unfold source_index.
  destruct (Nat.ltb_spec i t), (Nat.eqb_spec i t), (Nat.ltb_spec i f),
    (Nat.leb_spec f i), (Nat.ltb_spec t i), (Nat.leb_spec i f),
    (Nat.ltb_spec (Nat.pred i) f); cbn [andb]; try lia;
    try (subst; now rewrite Hf); try reflexivity; try (f_equal; lia).
Qed.

Lemma index_of_present (id : jsstring) (songs : list Song.t) :
  (exists s, In s songs /\ Song.id s = id) ->
  exists n s,
    index_of id songs = Z.of_nat n /\
    nth_error songs n = Some s /\ Song.id s = id /\
    forall m y, m < n -> nth_error songs m = Some y -> Song.id y <> id.
Proof.
  intros (s & Hin & Hid).
  destruct (findIndex_from_found (fun i => str_eqb (Song.id i) id) songs 0)
    as (n & x & Hn & Hx & Hp & Hlt).
  { exists s. split; [assumption | now apply str_eqb_eq]. }
  exists n, x. repeat split; try assumption.
  - now apply str_eqb_eq.
  - intros m y Hm Hy. apply str_eqb_neq. now apply (Hlt m y).
Qed.

Lemma index_of_absent (id : jsstring) (songs : list Song.t) :
  (forall s, In s songs -> Song.id s <> id) -> index_of id songs = (-1)%Z.
Proof.
  intros H. apply findIndex_from_absent.
  intros x Hx. apply str_eqb_neq. now apply H.
Qed.

Lemma unique_ids_index (songs : list Song.t) (a b : nat) (x y : Song.t) :
  unique_ids songs ->
  nth_error songs a = Some x -> nth_error songs b = Some y ->
  Song.id x = Song.id y -> a = b.
Proof.
  unfold unique_ids. intros Hnd Ha Hb Hid.
  rewrite NoDup_nth_error in Hnd. apply Hnd.
  - rewrite length_map. apply nth_error_Some. congruence.
  - rewrite !nth_error_map, Ha, Hb. simpl. congruence.
Qed.

Lemma source_index_target (f t : nat) : source_index f t t = f.
Proof. unfold source_index. now rewrite Nat.eqb_refl. Qed.

(** C2. For distinct ids that are both in the list, [moveSong] yields a
    permutation of the songs, with no [undefined] slot, in which the song
    found under [id] sits at the index [t] that [targetId] had before the
    move; slot [i] of the result holds the song that was at
    [source_index f t i], so the songs between the two positions shift by
    one and all others stay where they were.  With unique ids, looking [id]
    up again gives [t]. *)
Theorem moveSong_relocates (songs : list Song.t) (id targetId : jsstring) :
  id <> targetId ->
  (exists s, In s songs /\ Song.id s = id) ->
  (exists s, In s songs /\ Song.id s = targetId) ->
  exists (f t : nat) (moved : list Song.t),
    index_of id songs = Z.of_nat f /\
    index_of targetId songs = Z.of_nat t /\
    moveSong id targetId songs = map Some moved /\
    Permutation songs moved /\
    length moved = length songs /\
    (exists s, nth_error songs f = Some s /\ Song.id s = id /\
               nth_error moved t = Some s) /\
    (forall i, nth_error moved i = nth_error songs (source_index f t i)) /\
    (unique_ids songs -> index_of id moved = Z.of_nat t).
Proof.
  intros Hne Hid Htid.
  destruct (index_of_present id songs Hid) as (f & s & Hf & Hs & Hsid & _).
  destruct (index_of_present targetId songs Htid)
    as (t & s' & Ht & Hs' & _ & _).
  assert (Htlen : t < length songs) by (apply nth_error_Some; congruence).
  pose proof (remove_insert_permutation f t s songs Hs) as Hperm.
  pose proof (fun i => nth_error_moved songs f t s i Hs Htlen) as Hnth.
  assert (Hat : nth_error (insert_at t s (remove_at f songs)) t = Some s)
    by (now rewrite Hnth, source_index_target).
  exists f, t, (insert_at t s (remove_at f songs)).
  repeat apply conj; try assumption.
  - unfold moveSong, handleDragEnd; simpl.
    apply str_eqb_neq in Hne. rewrite Hne; simpl.
    fold (index_of id songs) (index_of targetId songs).
    rewrite Hf, Ht. now apply arrayMove_in_range.
  - symmetry. now apply Permutation_length.
  - now exists s.
  - intros Hu. unfold index_of, findIndex.
    rewrite (findIndex_from_first _ _ 0 t s Hat); [reflexivity| |].
    + now apply str_eqb_eq.
    + intros m y Hm Hy. apply str_eqb_neq. intros Hyid.
      rewrite Hnth in Hy.
      assert (E : source_index f t m = f).
      { apply (unique_ids_index songs _ _ y s Hu Hy Hs). congruence. }
      assert (E' : source_index f t m = source_index f t t)
        by (now rewrite source_index_target).
      apply source_index_inj in E'. lia.
Qed.

Lemma moveSong_relocates_witness :
  exists (f t : nat) (moved : list Song.t),
    index_of (js "a") [songA; songB; songC] = Z.of_nat f /\
    index_of (js "c") [songA; songB; songC] = Z.of_nat t /\
    moveSong (js "a") (js "c") [songA; songB; songC] = map Some moved /\
    Permutation [songA; songB; songC] moved /\
    length moved = 3 /\
    (exists s, nth_error [songA; songB; songC] f = Some s /\
               Song.id s = js "a" /\ nth_error moved t = Some s) /\
    (forall i, nth_error moved i
               = nth_error [songA; songB; songC] (source_index f t i)) /\
    (unique_ids [songA; songB; songC] -> index_of (js "a") moved = Z.of_nat t).
Proof.
  apply (moveSong_relocates [songA; songB; songC] (js "a") (js "c")).
  - vm_compute; discriminate.
  - exists songA. split; [simpl; auto | reflexivity].
  - exists songC. split; [simpl; auto | reflexivity].
Defined.

(** C3, as the code has it. [moveSong] leaves the list as it was when
    [id] and [targetId] are the same id, and [handleDragEnd] does so too
    when no drop target is reported; it returns a list in every case. *)
Theorem moveSong_same_id_unchanged (songs : list Song.t) (id : jsstring) :
  moveSong id id songs = map Some songs /\
  handleDragEnd {| DragEndEvent.active := id; DragEndEvent.over := None |} songs
  = map Some songs.
Proof.
  unfold moveSong, handleDragEnd; simpl.
  now rewrite str_eqb_refl.
Qed.

(** C3 as stated fails: with an id that is not in the list the last song
    is the one moved, and with a target that is not in the list the song
    is moved to the end. *)
Lemma moveSong_absent_unchanged_counterexample :
  (index_of (js "x") [songA; songB; songC] = (-1)%Z /\
   moveSong (js "x") (js "a") [songA; songB; songC]
   = map Some [songC; songA; songB] /\
   moveSong (js "x") (js "a") [songA; songB; songC]
   <> map Some [songA; songB; songC]) /\
  (moveSong (js "a") (js "x") [songA; songB; songC]
   = map Some [songB; songC; songA] /\
   moveSong (js "a") (js "x") [songA; songB; songC]
   <> map Some [songA; songB; songC]).
Proof.
  repeat apply conj; try reflexivity; vm_compute; discriminate.
Qed.

(** * Further properties of the handlers *)

(** ** Playing, pausing and the audio element *)

Lemma find_song_absent (songs : list Song.t) (id : jsstring) :
  (forall s, In s songs -> Song.id s <> id) -> find_song songs id = None.
Proof.
  unfold find_song. induction songs as [|x tl IH]; simpl; intros H;
    [reflexivity|].
  assert (E : str_eqb (Song.id x) id = false)
    by (apply str_eqb_neq, H; now left).
  rewrite E. apply IH. intros s Hs. apply H. now right.
Qed.

(** X1. [handlePlay] acts exactly when the id is in the list: for an id
    no song has, the player state is returned as it was and nothing is
    sent to the audio element; for an id some song has, [play()] is sent
    and [isPlaying] becomes true. *)
Theorem play_acts_iff_known (songs : list Song.t) (id : jsstring)
    (ps : PlayerState.t) :
  ((forall s, In s songs -> Song.id s <> id) ->
   play songs id ps = ps /\ play_commands songs id ps = []) /\
  ((exists s, In s songs /\ Song.id s = id) ->
   isPlaying (play songs id ps) = true /\
   currentSongId (play songs id ps) = Some id /\
   In CmdPlay (play_commands songs id ps)).
Proof.
  unfold play, play_commands, dispatch, commands; simpl. unfold handlePlay.
  split.
  - intros H. now rewrite (find_song_absent songs id H).
  - intros (s & Hin & <-).
    destruct (find_song_present songs s Hin) as [s' ->].
    destruct (is_current ps (Song.id s)) eqn:E; simpl.
    + apply is_current_spec in E. tauto.
    + tauto.
Qed.

Lemma play_acts_iff_known_witness :
  (play [songA; songB] (js "z") initialPlayerState = initialPlayerState /\
   play_commands [songA; songB] (js "z") initialPlayerState = []) /\
  isPlaying (play [songA; songB] (js "b") initialPlayerState) = true.
Proof.
  split.
  - apply (proj1 (play_acts_iff_known [songA; songB] (js "z")
                    initialPlayerState)).
    intros s [<-|[<-|[]]]; vm_compute; discriminate.
  - apply (proj2 (play_acts_iff_known [songA; songB] (js "b")
                    initialPlayerState)).
    exists songB. split; [simpl; auto | reflexivity].
Defined.

(** X2. The handlers assign the audio element's source, or reload it,
    exactly when the event changes [currentSongId]; pause, seek and the
    element's notifications never do, nor does playing the current song or
    an unknown id. *)
Theorem source_reloaded_iff_song_changes (e : PlayerEvent)
    (s : PlayerState.t) :
  reloads (commands e s) = true <->
  currentSongId (dispatch e s) <> currentSongId s.
Proof.
  assert (Hsame : forall c : option jsstring, false = true <-> c <> c)
    by (intros c; split; [discriminate | intros H; now elim H]).
  destruct e; unfold commands, dispatch; simpl; try apply Hsame.
  unfold handlePlay.
  destruct (find_song songs id); [|apply Hsame].
  destruct (is_current s id) eqn:E; simpl; [apply Hsame|].
  split; [intros _ H | reflexivity].
  symmetry in H. apply is_current_spec in H. congruence.
Qed.

Lemma dispatch_current_song (e : PlayerEvent) (s : PlayerState.t) :
  currentSongId (dispatch e s) = currentSongId s \/
  exists id, currentSongId (dispatch e s) = Some id.
Proof.
  destruct e; unfold dispatch; simpl; auto.
  unfold handlePlay. destruct (find_song songs id); auto.
  destruct (is_current s id); simpl; eauto.
Qed.

(** X3. Once a song is current, no sequence of events makes
    [currentSongId] null again. *)
Theorem current_song_never_cleared (evs : list PlayerEvent)
    (s : PlayerState.t) :
  currentSongId s <> None -> currentSongId (run evs s) <> None.
Proof.
  revert s; induction evs as [|e evs IH]; intros s H; [exact H|].
  unfold run; simpl. apply IH.
  destruct (dispatch_current_song e s) as [->|[id ->]];
    [exact H | discriminate].
Qed.

Lemma current_song_never_cleared_witness :
  currentSongId
    (run [EvPause; EvEnded; EvSeek 3%float; EvPlay [] (js "z")]
         (play [songA] (js "a") initialPlayerState)) <> None.
Proof.
  apply current_song_never_cleared. vm_compute. discriminate.
Defined.

(** ** The play/pause button of a card *)

(** X4. Clicking the button on the card of a song of the list flips what
    the card shows: a playing card stops, any other card starts playing. *)
Theorem card_button_toggles (songs : list Song.t) (ps : PlayerState.t)
    (song : Song.t) :
  In song songs ->
  card_isPlaying song (snd (cardButtonClick songs ps song) ps)
  = negb (card_isPlaying song ps).
Proof.
  intros Hin. unfold cardButtonClick.
  destruct (card_isPlaying song ps) eqn:E; simpl.
  - unfold card_isPlaying; simpl. apply andb_false_r.
  - unfold handlePlay.
    destruct (find_song_present songs song Hin) as [s' ->].
    unfold card_isPlaying, isCurrentSong.
    destruct (is_current ps (Song.id song)) eqn:Ec; simpl.
    + unfold is_current in *; simpl. now rewrite Ec.
    + unfold is_current; simpl. now rewrite str_eqb_refl.
Qed.

Lemma card_button_toggles_witness :
  card_isPlaying songB
    (snd (cardButtonClick [songA; songB] initialPlayerState songB)
         initialPlayerState) = true.
Proof.
  rewrite (card_button_toggles [songA; songB] initialPlayerState songB).
  - reflexivity.
  - simpl; auto.
Defined.

(** X5. At most one id shows as playing: two cards that both show as
    playing are cards of the same id, and after the button of one card of
    the list is clicked no card with another id shows as playing. *)
Theorem card_playing_exclusive (songs : list Song.t) (ps : PlayerState.t)
    (song other : Song.t) :
  (card_isPlaying song ps = true -> card_isPlaying other ps = true ->
   Song.id song = Song.id other) /\
  (In song songs -> Song.id other <> Song.id song ->
   card_isPlaying other (snd (cardButtonClick songs ps song) ps) = false).
Proof.
  split.
  - unfold card_isPlaying, isCurrentSong. intros H1 H2.
    apply andb_true_iff in H1 as [H1 _]. apply andb_true_iff in H2 as [H2 _].
    apply is_current_spec in H1, H2. congruence.
  - intros Hin Hne. unfold cardButtonClick.
    destruct (card_isPlaying song ps) eqn:E; simpl.
    + unfold card_isPlaying; simpl. apply andb_false_r.
    + unfold handlePlay.
      destruct (find_song_present songs song Hin) as [s' ->].
      unfold card_isPlaying, isCurrentSong.
      assert (Hcur : forall st, currentSongId st = Some (Song.id song) ->
                                is_current st (Song.id other) = false).
      { intros st Hst. destruct (is_current st (Song.id other)) eqn:Eo;
          [|reflexivity].
        apply is_current_spec in Eo. congruence. }
      destruct (is_current ps (Song.id song)) eqn:Ec; simpl.
      * apply is_current_spec in Ec. rewrite Hcur; [reflexivity|].
        simpl. exact Ec.
      * rewrite Hcur; reflexivity.
Qed.

Lemma card_playing_exclusive_witness :
  let ps := play [songA; songB] (js "a") initialPlayerState in
  card_isPlaying songA (snd (cardButtonClick [songA; songB] ps songB) ps)
  = false.
Proof.
  intros ps.
  apply (proj2 (card_playing_exclusive [songA; songB] ps songB songA)).
  - simpl; auto.
  - vm_compute; discriminate.
Defined.

Lemma source_reloaded_iff_song_changes_witness :
  reloads (commands (EvPlay [songA; songB] (js "b"))
                    (play [songA; songB] (js "a") initialPlayerState)) = true.
Proof.
  apply (proj2 (source_reloaded_iff_song_changes
                  (EvPlay [songA; songB] (js "b"))
                  (play [songA; songB] (js "a") initialPlayerState))).
  vm_compute. discriminate.
Defined.

(** ** Renaming *)

Lemma handleRename_field {B : Type} (g : Song.t -> B) (id newName : jsstring)
    (songs : list Song.t) :
  (forall s, g (Song.with_name s newName) = g s) ->
  map g (handleRename id newName songs) = map g songs.
Proof.
  intros Hg. unfold handleRename. rewrite map_map. apply map_ext.
  intros s. now destruct (str_eqb (Song.id s) id).
Qed.

Lemma find_song_handleRename (id newName id' : jsstring)
    (songs : list Song.t) :
  find_song (handleRename id newName songs) id'
  = option_map
      (fun s => if str_eqb (Song.id s) id then Song.with_name s newName else s)
      (find_song songs id').
Proof.
  unfold find_song, handleRename.
  induction songs as [|x tl IH]; simpl; [reflexivity|].
  assert (E : Song.id (if str_eqb (Song.id x) id
                       then Song.with_name x newName else x) = Song.id x)
    by now destruct (str_eqb (Song.id x) id).
  rewrite E. now destruct (str_eqb (Song.id x) id').
Qed.

Lemma index_of_handleRename (id newName id' : jsstring)
    (songs : list Song.t) :
  index_of id' (handleRename id newName songs) = index_of id' songs.
Proof.
  unfold index_of, findIndex, handleRename. generalize 0%Z.
  induction songs as [|x tl IH]; intros z; simpl; [reflexivity|].
  assert (E : Song.id (if str_eqb (Song.id x) id
                       then Song.with_name x newName else x) = Song.id x)
    by now destruct (str_eqb (Song.id x) id).
  rewrite E. now destruct (str_eqb (Song.id x) id').
Qed.

(** X6. [handleRename] changes names only: the ids, urls and files of the
    list stay as they were, position by position, so the list keeps its
    length and its unique ids, and every id is found at the index it had. *)
Theorem rename_changes_names_only (id newName : jsstring)
    (songs : list Song.t) :
  map Song.id (handleRename id newName songs) = map Song.id songs /\
  map Song.url (handleRename id newName songs) = map Song.url songs /\
  map Song.file (handleRename id newName songs) = map Song.file songs /\
  length (handleRename id newName songs) = length songs /\
  (unique_ids songs <-> unique_ids (handleRename id newName songs)) /\
  (forall id', index_of id' (handleRename id newName songs)
               = index_of id' songs).
Proof.
  assert (Hid : map Song.id (handleRename id newName songs)
                = map Song.id songs) by now apply handleRename_field.
  repeat apply conj; try (now apply handleRename_field).
  - unfold handleRename. apply length_map.
  - unfold unique_ids. now rewrite Hid.
  - unfold unique_ids. now rewrite Hid.
  - intros id'. apply index_of_handleRename.
Qed.

(** X7. Renames compose as writes to one field: renaming the same id
    twice keeps the second name only, and renames of two different ids can
    be done in either order. *)
Theorem rename_last_wins_and_commutes (id id' n1 n2 : jsstring)
    (songs : list Song.t) :
  handleRename id n2 (handleRename id n1 songs) = handleRename id n2 songs /\
  (id <> id' ->
   handleRename id n1 (handleRename id' n2 songs)
   = handleRename id' n2 (handleRename id n1 songs)).
Proof.
  unfold handleRename. rewrite !map_map. split.
  - apply map_ext. intros s.
    destruct (str_eqb (Song.id s) id) eqn:E; simpl; now rewrite E.
  - intros Hne. apply map_ext. intros s.
    destruct (str_eqb (Song.id s) id) eqn:E,
             (str_eqb (Song.id s) id') eqn:E'; simpl;
      rewrite ?E, ?E'; try reflexivity.
    apply str_eqb_eq in E, E'. congruence.
Qed.

Lemma rename_last_wins_and_commutes_witness :
  handleRename (js "a") (js "Carol") (handleRename (js "b") (js "Bells") [songA; songB])
  = handleRename (js "b") (js "Bells") (handleRename (js "a") (js "Carol") [songA; songB]).
Proof.
  apply (proj2 (rename_last_wins_and_commutes (js "a") (js "b") (js "Carol")
                  (js "Bells") [songA; songB])).
  vm_compute. discriminate.
Defined.

(** X8. A rename does not change what [handlePlay] does: for every id the
    player state and the commands sent to the audio element are the same
    before and after the rename. *)
Theorem rename_keeps_playback (id newName id' : jsstring)
    (songs : list Song.t) (ps : PlayerState.t) :
  play (handleRename id newName songs) id' ps = play songs id' ps /\
  play_commands (handleRename id newName songs) id' ps
  = play_commands songs id' ps.
Proof.
  unfold play, play_commands, dispatch, commands; simpl. unfold handlePlay.
  rewrite find_song_handleRename.
  destruct (find_song songs id') as [s|]; simpl; [|auto].
  destruct (is_current ps id'); simpl; [auto|].
  now destruct (str_eqb (Song.id s) id).
Qed.

(** ** Editing a name in a card *)

(** X9. A commit in a card ends the editing and calls [onRename] exactly
    when the text holds a code unit that is not white space: the text is
    then passed as it was typed, with the card's song id; a text that is
    empty or all white space is discarded and the card shows the song's
    name again. *)
Theorem save_name_decides_on_white_space (song : Song.t) (card : Card.t) :
  Card.isEditing (snd (handleSaveName song card)) = false /\
  (forallb is_white_space (Card.editName card) = true ->
   handleSaveName song card = (None, initialCard song)) /\
  (forallb is_white_space (Card.editName card) = false ->
   fst (handleSaveName song card)
   = Some (Song.id song, Card.editName card) /\
   Card.editName (snd (handleSaveName song card)) = Card.editName card).
Proof.
  unfold handleSaveName.
  destruct (truthy (trim (Card.editName card))) eqn:E; simpl.
  - split; [reflexivity | split].
    + intros H. apply trim_nil in H. rewrite H in E. discriminate.
    + intros _. split; reflexivity.
  - apply truthy_false, trim_nil in E.
    split; [reflexivity | split].
    + intros _. reflexivity.
    + intros H. congruence.
Qed.

Lemma save_name_decides_on_white_space_witness :
  handleSaveName songA (typeName (js "  ") (startEditing (initialCard songA)))
  = (None, initialCard songA) /\
  fst (handleSaveName songA
         (typeName (js " Carol ") (startEditing (initialCard songA))))
  = Some (js "a", js " Carol ").
Proof.
  split.
  - apply (save_name_decides_on_white_space songA
             (typeName (js "  ") (startEditing (initialCard songA)))).
    reflexivity.
  - apply (save_name_decides_on_white_space songA
             (typeName (js " Carol ") (startEditing (initialCard songA)))).
    reflexivity.
Defined.

(** X10. Of all keys only Enter can rename: Enter does what a commit does,
    Escape throws the typed text away and shows the song's name again
    without calling [onRename], and any other key leaves the card and the
    list as they are. *)
Theorem only_enter_renames (key : jsstring) (song : Song.t) (card : Card.t)
    (songs : list Song.t) :
  (key = js "Enter" ->
   handleKeyDown key song card = handleSaveName song card) /\
  (key = js "Escape" ->
   handleKeyDown key song card = (None, initialCard song)) /\
  (key <> js "Enter" -> key <> js "Escape" ->
   handleKeyDown key song card = (None, card)) /\
  (key <> js "Enter" ->
   apply_rename (fst (handleKeyDown key song card)) songs = songs).
Proof.
  unfold handleKeyDown. repeat apply conj.
  - intros ->. replace (str_eqb (js "Enter") (js "Enter")) with true
      by reflexivity.
    replace (str_eqb (js "Enter") (js "Escape")) with false by reflexivity.
    now destruct (handleSaveName song card).
  - intros ->. reflexivity.
  - intros H1 H2. apply str_eqb_neq in H1, H2. now rewrite H1, H2.
  - intros H1. apply str_eqb_neq in H1. rewrite H1.
    now destruct (str_eqb key (js "Escape")).
Qed.

Lemma only_enter_renames_witness :
  handleKeyDown (js "Escape") songA
    (typeName (js "Carol") (startEditing (initialCard songA)))
  = (None, initialCard songA) /\
  apply_rename
    (fst (handleKeyDown (js "Tab") songA
            (typeName (js "Carol") (startEditing (initialCard songA)))))
    [songA; songB] = [songA; songB].
Proof.
  split.
  - apply (only_enter_renames (js "Escape") songA
             (typeName (js "Carol") (startEditing (initialCard songA)))
             [songA; songB]).
    reflexivity.
  - apply (only_enter_renames (js "Tab") songA
             (typeName (js "Carol") (startEditing (initialCard songA)))
             [songA; songB]).
    vm_compute. discriminate.
Defined.

(** ** Uploads: ids, urls and names of the new songs *)

Lemma mapM_cons_snd {A B : Type} (f : A -> M B) (x : A) (tl : list A)
    (w : World) :
  snd (mapM f (x :: tl) w) = snd (mapM f tl (snd (f x w))).
Proof.
  simpl. unfold bind, ret. destruct (f x w) as [y w']; simpl.
  now destruct (mapM f tl w').
Qed.

Lemma mapM_draws (files : list File.t) (w : World) :
  let r :=
    mapM (fun file =>
            id <- randomUUID ;;
            let name := remove_extension (File.name file) in
            url <- createObjectURL file ;;
            ret {| Song.id := id; Song.name := name;
                   Song.url := url; Song.file := file |})
         files w in
  let n := length files in
  map Song.id (fst r) = map (uuids w) (seq 0 n) /\
  map Song.url (fst r) = map (objectURLs w) (seq 0 n) /\
  (forall i, uuids (snd r) i = uuids w (n + i)) /\
  (forall i, objectURLs (snd r) i = objectURLs w (n + i)).
Proof.
  cbv zeta. revert w; induction files as [|f files IH]; intros w.
  - simpl. auto.
  - rewrite mapM_cons_fst, mapM_cons_snd. cbn [map length seq].
    match goal with |- context [mapM ?g files ?w'] =>
      destruct (IH w') as (Hid & Hurl & Hu & Ho) end.
    rewrite <- seq_shift, !map_map.
    repeat apply conj.
    + f_equal. exact Hid.
    + f_equal. exact Hurl.
    + intros i. rewrite Hu. reflexivity.
    + intros i. rewrite Ho. reflexivity.
Qed.

Lemma addSongs_fst (files : list File.t) (songs : list Song.t) (w : World) :
  exists newSongs,
    fst (addSongs files songs w) = songs ++ newSongs /\
    map Song.id newSongs = map (uuids w) (seq 0 (length files)) /\
    map Song.url newSongs = map (objectURLs w) (seq 0 (length files)) /\
    (forall i, uuids (snd (addSongs files songs w)) i
               = uuids w (length files + i)) /\
    (forall i, objectURLs (snd (addSongs files songs w)) i
               = objectURLs w (length files + i)).
Proof.
  pose proof (mapM_draws files w) as H; cbv zeta in H.
  unfold addSongs, handleFilesAdded.
  match goal with |- context [mapM ?g files] => set (G := g) in * end.
  unfold bind, ret. destruct (mapM G files w) as [ys w'].
  exists ys. simpl in *. tauto.
Qed.

(** X11. An upload draws one id and one url per file from the world, in
    the order of the files: the new songs carry the next ids of
    [crypto.randomUUID()] and the next urls of [URL.createObjectURL()], the
    songs already there keep theirs, and the world moves on by the number
    of files. *)
Theorem addSongs_draws_in_order (files : list File.t) (songs : list Song.t)
    (w : World) :
  let n := length files in
  map Song.id (fst (addSongs files songs w))
  = map Song.id songs ++ map (uuids w) (seq 0 n) /\
  map Song.url (fst (addSongs files songs w))
  = map Song.url songs ++ map (objectURLs w) (seq 0 n) /\
  (forall i, uuids (snd (addSongs files songs w)) i = uuids w (n + i)) /\
  (forall i, objectURLs (snd (addSongs files songs w)) i
             = objectURLs w (n + i)).
Proof.
  cbv zeta.
  destruct (addSongs_fst files songs w) as (ys & -> & Hid & Hurl & Hu & Ho).
  rewrite !map_app, Hid, Hurl. auto.
Qed.

(** X12. An upload keeps the ids of the list unique, when
    [crypto.randomUUID()] never returns an id twice nor an id a song of
    the list already has. *)
Theorem addSongs_keeps_unique_ids (files : list File.t)
    (songs : list Song.t) (w : World) :
  fresh_uuids w ->
  (forall s i, In s songs -> Song.id s <> uuids w i) ->
  unique_ids songs ->
  unique_ids (fst (addSongs files songs w)).
Proof.
  intros Hfresh Hnew Hu. unfold unique_ids in *.
  destruct (addSongs_fst files songs w) as (ys & -> & Hid & _).
  rewrite map_app, Hid.
  apply NoDup_app; [assumption | |].
  - apply Finite.Injective_map_NoDup; [exact Hfresh | apply seq_NoDup].
  - intros a Ha Hb.
    apply in_map_iff in Ha as (s & <- & Hs).
    apply in_map_iff in Hb as (i & Hi & _).
    now apply (Hnew s i Hs).
Qed.

Lemma sample_world_fresh : fresh_uuids sample_world.
Proof.
  intros i j H. simpl in H.
  injection H as H. now apply Nat2N.inj.
Qed.

Lemma addSongs_keeps_unique_ids_witness :
  unique_ids
    (fst (addSongs [sample_file "a.mp3"; sample_file "a.mp3"] [songA]
                   sample_world)).
Proof.
  apply addSongs_keeps_unique_ids.
  - exact sample_world_fresh.
  - intros s i [<-|[]] H. apply (f_equal (@length N)) in H. discriminate.
  - unfold unique_ids; simpl. repeat constructor. intros [].
Defined.

(** X13. A change of the file input appends exactly the selected files,
    as one song each, and touches nothing else; with no selection, or an
    empty one, [onFilesAdded] is not called, the input is not reset, and
    the application and the world stay as they were. *)
Theorem file_change_appends_selection (files : option (list File.t))
    (app : App.t) :
  let selection := match files with Some fs => fs | None => [] end in
  exists app',
    app_step (AeFileChange files) app = Some app' /\
    map Song.file (App.songs app')
    = map Song.file (App.songs app) ++ selection /\
    firstn (length (App.songs app)) (App.songs app') = App.songs app /\
    App.playerState app' = App.playerState app /\
    App.audio_src app' = App.audio_src app /\
    (selection = [] -> app' = app /\ handleFileChange files = (None, None)) /\
    (selection <> [] -> handleFileChange files = (Some selection, Some [])).
Proof.
  cbv zeta. destruct files as [[|f fs]|]; simpl.
  - exists app. rewrite app_nil_r, firstn_all. repeat split; congruence.
  - destruct (addSongs_appends (f :: fs) (App.songs app) (App.world app))
      as (ys & Hy & Hf & _).
    unfold addSongs in Hy.
    destruct (handleFilesAdded (f :: fs) (App.songs app) (App.world app))
      as [songs' w'].
    simpl in Hy; subst songs'.
    eexists; split; [reflexivity|]. simpl.
    rewrite map_app, Hf, firstn_app, firstn_all, Nat.sub_diag; simpl.
    rewrite app_nil_r. repeat split; congruence.
  - exists app. rewrite app_nil_r, firstn_all. repeat split; congruence.
Qed.

(** X14. The derived name is the file name with a suffix cut off, and
    what is cut is either nothing or one extension: a dot followed by one
    or more code units other than [/] and [.], up to the end. *)
Theorem remove_extension_cuts_suffix (s : jsstring) :
  exists cut,
    s = remove_extension s ++ cut /\
    (cut = [] \/ matches_extension cut = true).
Proof.
  induction s as [|c tl (cut & Hcut & Hm)].
  - exists []. auto.
  - cbn [remove_extension].
    destruct (matches_extension (c :: tl)) eqn:E.
    + exists (c :: tl). auto.
    + exists cut. split; [simpl; now f_equal | exact Hm].
Qed.

(** X15. For a song as it was uploaded, from a file whose name ends in an
    extension, the download name is the file name with that extension
    replaced by [mp3]; it is the file name itself exactly when the
    extension was [mp3]. *)
Theorem download_name_of_upload (files : list File.t) (songs : list Song.t)
    (w : World) (s : Song.t) (base ext : jsstring) :
  In s (skipn (length songs) (fst (addSongs files songs w))) ->
  File.name (Song.file s) = base ++ DOT :: ext ->
  ext <> [] -> forallb not_slash_dot ext = true ->
  download_name s = base ++ js ".mp3" /\
  (download_name s = File.name (Song.file s) <-> ext = js "mp3").
Proof.
  intros Hin Hname Hne Hext.
  destruct (addSongs_appends files songs w) as (ys & Hy & Hf & Hn).
  rewrite Hy, skipn_app, skipn_all, Nat.sub_diag in Hin; simpl in Hin.
  assert (Hs : Song.name s = song_name_of (Song.file s)).
  { rewrite <- Hf, map_map in Hn.
    exact (proj1 (@map_ext_in_iff _ _ Song.name
                    (fun x => song_name_of (Song.file x)) ys) Hn s Hin). }
  assert (Hd : download_name s = base ++ js ".mp3").
  { unfold download_name, song_name_of in *.
    now rewrite Hs, Hname, remove_extension_strips. }
  split; [exact Hd|].
  rewrite Hd, Hname. split.
  - intros H. apply app_inv_head in H. now inversion H.
  - now intros ->.
Qed.

Lemma download_name_of_upload_witness :
  let s := {| Song.id := uuids sample_world 0;
              Song.name := js "Jingle Bells";
              Song.url := objectURLs sample_world 0;
              Song.file := sample_file "Jingle Bells.wav" |} in
  download_name s = js "Jingle Bells.mp3" /\
  download_name s <> File.name (Song.file s).
Proof.
  intros s.
  destruct (download_name_of_upload [sample_file "Jingle Bells.wav"] [songA]
              sample_world s (js "Jingle Bells") (js "wav")) as [H1 H2].
  - vm_compute. auto.
  - reflexivity.
  - discriminate.
  - reflexivity.
  - split; [exact H1|]. intros H. apply H2 in H. discriminate.
Defined.

(** ** Reordering: every drag end *)

Lemma splice_negative {A : Type} (l : list A) (start deleteCount : Z)
    (items : list A) :
  (start < 0)%Z -> (- Z.of_nat (length l) <= start)%Z ->
  splice l start deleteCount items
  = splice l (Z.of_nat (length l) + start) deleteCount items.
Proof.
  intros Hneg Hlow. unfold splice.
  destruct (Z.ltb_spec start 0) as [_|H]; [|lia].
  destruct (Z.ltb_spec (Z.of_nat (length l) + start) 0) as [H|_]; [lia|].
  rewrite (Z.max_l (Z.of_nat (length l) + start) 0) by lia.
  now rewrite (Z.min_l (Z.of_nat (length l) + start)) by lia.
Qed.

Lemma position_spec (i : Z) (len : nat) :
  0 < len -> (-1 <= i < Z.of_nat len)%Z ->
  position i len < len /\
  Z.of_nat (position i len)
  = (if (i <? 0)%Z then Z.of_nat len + i else i)%Z.
Proof.
  intros Hlen H. unfold position. destruct (Z.ltb_spec i 0); lia.
Qed.

Lemma position_found (n len : nat) : position (Z.of_nat n) len = n.
Proof.
  unfold position. destruct (Z.ltb_spec (Z.of_nat n) 0); lia.
Qed.

Lemma position_not_found (len : nat) : position (-1) len = len - 1.
Proof. unfold position. simpl. lia. Qed.

(** On a non-empty array [arrayMove] reads an index of [findIndex] as a
    position, [-1] being the last one. *)
Lemma arrayMove_position {A : Type} (l : list A) (from to : Z) :
  l <> [] ->
  (-1 <= from < Z.of_nat (length l))%Z ->
  (-1 <= to < Z.of_nat (length l))%Z ->
  arrayMove l from to
  = arrayMove l (Z.of_nat (position from (length l)))
                (Z.of_nat (position to (length l))).
Proof.
  intros Hne Hf Ht.
  assert (Hlen : 0 < length l) by (destruct l; simpl; [congruence | lia]).
  destruct (position_spec from (length l) Hlen Hf) as [_ Ef].
  destruct (position_spec to (length l) Hlen Ht) as [_ Et].
  unfold arrayMove.
  destruct (Z.ltb_spec (Z.of_nat (position to (length l))) 0) as [H|_];
    [lia|].
  rewrite Et, Ef.
  destruct (Z.ltb_spec from 0) as [Hneg|_]; [|reflexivity].
  now rewrite (splice_negative l from 1 []) by lia.
Qed.

Lemma index_of_range (id : jsstring) (songs : list Song.t) :
  (-1 <= index_of id songs < Z.of_nat (length songs))%Z.
Proof.
  destruct (find_song songs id) as [s|] eqn:E.
  - apply find_song_id in E as [Hin Hid].
    destruct (index_of_present id songs (ex_intro _ s (conj Hin Hid)))
      as (n & x & -> & Hx & _).
    assert (n < length songs) by (apply nth_error_Some; congruence). lia.
  - rewrite index_of_absent; [lia|].
    intros s Hs. apply str_eqb_neq.
    exact (find_none _ _ E s Hs).
Qed.

Lemma map_Some_inj {A : Type} (l l' : list A) :
  map Some l = map Some l' -> l = l'.
Proof.
  revert l'; induction l as [|x l IH]; intros [|y l'] H; simpl in H;
    try discriminate; [reflexivity|].
  inversion H; subst. f_equal. now apply IH.
Qed.

(** A drag end with two different ids on a non-empty list takes the song
    at the position of the first id out and puts it at the position of
    the second. *)
Lemma moveSong_moves (id targetId : jsstring) (songs : list Song.t) :
  songs <> [] -> id <> targetId ->
  exists x,
    nth_error songs (position (index_of id songs) (length songs)) = Some x /\
    position (index_of targetId songs) (length songs) < length songs /\
    moveSong id targetId songs
    = map Some
        (insert_at (position (index_of targetId songs) (length songs)) x
           (remove_at (position (index_of id songs) (length songs)) songs)).
Proof.
  intros Hne Hneq.
  assert (Hlen : 0 < length songs)
    by (destruct songs; simpl; [congruence | lia]).
  pose proof (index_of_range id songs) as Hf.
  pose proof (index_of_range targetId songs) as Ht.
  destruct (position_spec _ _ Hlen Hf) as [Hflt _].
  destruct (position_spec _ _ Hlen Ht) as [Htlt _].
  destruct (nth_error songs (position (index_of id songs) (length songs)))
    as [x|] eqn:Ex; [|apply nth_error_None in Ex; lia].
  exists x. repeat apply conj; try reflexivity; try assumption.
  unfold moveSong, handleDragEnd; simpl.
  apply str_eqb_neq in Hneq. rewrite Hneq; simpl.
  fold (index_of id songs) (index_of targetId songs).
  rewrite arrayMove_position by assumption.
  now apply arrayMove_in_range.
Qed.

Lemma handleDragEnd_cases (event : DragEndEvent.t) (songs : list Song.t) :
  handleDragEnd event songs = map Some songs \/
  exists targetId,
    DragEndEvent.active event <> targetId /\
    handleDragEnd event songs
    = moveSong (DragEndEvent.active event) targetId songs.
Proof.
  unfold moveSong, handleDragEnd; simpl.
  destruct (DragEndEvent.over event) as [over_id|]; [|now left].
  destruct (str_eqb (DragEndEvent.active event) over_id) eqn:E; simpl;
    [now left|].
  right. exists over_id. split; [now apply str_eqb_neq|].
  now rewrite E.
Qed.

Lemma handleDragEnd_nonempty (event : DragEndEvent.t) (songs : list Song.t) :
  songs <> [] ->
  exists moved,
    handleDragEnd event songs = map Some moved /\ Permutation songs moved.
Proof.
  intros Hne.
  destruct (handleDragEnd_cases event songs) as [E|(tid & Hneq & E)].
  - exists songs. split; [assumption | apply Permutation_refl].
  - destruct (moveSong_moves _ tid songs Hne Hneq) as (x & Hx & _ & Hm).
    eexists. split; [rewrite E; exact Hm|].
    now apply remove_insert_permutation.
Qed.

Lemma handleDragEnd_permutation (event : DragEndEvent.t)
    (songs moved : list Song.t) :
  handleDragEnd event songs = map Some moved -> Permutation songs moved.
Proof.
  intros H. destruct songs as [|s0 tl].
  - unfold handleDragEnd in H.
    destruct (DragEndEvent.over event) as [over_id|];
      [destruct (negb (str_eqb (DragEndEvent.active event) over_id))|];
      simpl in H; destruct moved; try discriminate; constructor.
  - destruct (handleDragEnd_nonempty event (s0 :: tl)) as (m & E & Hp);
      [discriminate|].
    rewrite E in H. apply map_Some_inj in H. now subst m.
Qed.

(** X16. On a list that is not empty, a drag end never loses, repeats or
    blanks a song, whatever ids it reports: the new list has no
    [undefined] slot and is a permutation of the old one, so unique ids
    stay unique. *)
Theorem drag_end_permutes (event : DragEndEvent.t) (songs : list Song.t) :
  songs <> [] ->
  exists moved,
    handleDragEnd event songs = map Some moved /\
    Permutation songs moved /\
    length moved = length songs /\
    (unique_ids songs -> unique_ids moved).
Proof.
  intros Hne.
  destruct (handleDragEnd_nonempty event songs Hne) as (moved & E & Hp).
  exists moved. repeat apply conj; try assumption.
  - symmetry. now apply Permutation_length.
  - unfold unique_ids. apply Permutation_NoDup. now apply Permutation_map.
Qed.

Lemma drag_end_permutes_witness :
  exists moved,
    moveSong (js "zz") (js "b") [songA; songB; songC] = map Some moved /\
    Permutation [songA; songB; songC] moved /\
    length moved = 3 /\
    (unique_ids [songA; songB; songC] -> unique_ids moved).
Proof.
  apply (drag_end_permutes
           {| DragEndEvent.active := js "zz"; DragEndEvent.over := Some (js "b") |}
           [songA; songB; songC]).
  discriminate.
Defined.

(** X17. [handleDragEnd] takes an id that is not in the list for the last
    position: with an unknown [id] the last song is the one put at the
    target's index, and with an unknown [targetId] the song is moved to
    the end of the list. *)
Theorem moveSong_unknown_id_is_last (songs : list Song.t)
    (id targetId : jsstring) :
  ((forall s, In s songs -> Song.id s <> id) ->
   (exists s, In s songs /\ Song.id s = targetId) ->
   exists t last,
     index_of targetId songs = Z.of_nat t /\
     nth_error songs (length songs - 1) = Some last /\
     moveSong id targetId songs
     = map Some (insert_at t last (removelast songs))) /\
  ((exists s, In s songs /\ Song.id s = id) ->
   (forall s, In s songs -> Song.id s <> targetId) ->
   exists f s,
     index_of id songs = Z.of_nat f /\
     nth_error songs f = Some s /\
     moveSong id targetId songs = map Some (remove_at f songs ++ [s])).
Proof.
  split.
  - intros Habs Hpres.
    destruct (index_of_present targetId songs Hpres)
      as (t & s' & Ht & Hs' & Hid' & _).
    assert (Hne : songs <> []) by (intros ->; now destruct t).
    assert (Hneq : id <> targetId).
    { intros ->. apply (Habs s'); [|assumption].
      now apply nth_error_In with t. }
    destruct (moveSong_moves id targetId songs Hne Hneq) as (x & Hx & _ & E).
    rewrite (index_of_absent id songs Habs), position_not_found in Hx, E.
    rewrite Ht, position_found in E.
    exists t, x. repeat split; try assumption.
    rewrite E. do 2 f_equal. unfold remove_at.
    rewrite removelast_firstn_len.
    assert (Hlen : 0 < length songs)
      by (destruct songs; simpl; [congruence | lia]).
    replace (Nat.pred (length songs)) with (length songs - 1) by lia.
    rewrite skipn_all2 by lia. apply app_nil_r.
  - intros Hpres Habs.
    destruct (index_of_present id songs Hpres)
      as (f & s & Hf & Hs & Hid & _).
    assert (Hne : songs <> []) by (intros ->; now destruct f).
    assert (Hlen : f < length songs) by (apply nth_error_Some; congruence).
    assert (Hneq : id <> targetId).
    { intros <-. apply (Habs s); [|assumption].
      now apply nth_error_In with f. }
    destruct (moveSong_moves id targetId songs Hne Hneq) as (x & Hx & _ & E).
    rewrite Hf, position_found in Hx, E.
    rewrite (index_of_absent targetId songs Habs), position_not_found in E.
    rewrite Hs in Hx. inversion Hx; subst x.
    exists f, s. repeat split; try assumption.
    rewrite E. f_equal. unfold insert_at.
    pose proof (length_remove_at f songs Hlen) as Hl.
    rewrite firstn_all2, skipn_all2 by lia. reflexivity.
Qed.

Lemma moveSong_unknown_id_is_last_witness :
  (exists t last,
     index_of (js "b") [songA; songB; songC] = Z.of_nat t /\
     nth_error [songA; songB; songC] 2 = Some last /\
     moveSong (js "zz") (js "b") [songA; songB; songC]
     = map Some (insert_at t last [songA; songB])) /\
  (exists f s,
     index_of (js "a") [songA; songB; songC] = Z.of_nat f /\
     nth_error [songA; songB; songC] f = Some s /\
     moveSong (js "a") (js "zz") [songA; songB; songC]
     = map Some (remove_at f [songA; songB; songC] ++ [s])).
Proof.
  split.
  - apply (proj1 (moveSong_unknown_id_is_last [songA; songB; songC]
                    (js "zz") (js "b"))).
    + intros s [<-|[<-|[<-|[]]]]; vm_compute; discriminate.
    + exists songB. split; [simpl; auto | reflexivity].
  - apply (proj2 (moveSong_unknown_id_is_last [songA; songB; songC]
                    (js "a") (js "zz"))).
    + exists songA. split; [simpl; auto | reflexivity].
    + intros s [<-|[<-|[<-|[]]]]; vm_compute; discriminate.
Defined.

(** X18. On the empty list a drag end that reports two different ids
    leaves an array with one [undefined] slot: [arrayMove] finds nothing to
    take out and inserts what it did not find. *)
Theorem moveSong_empty_list (id targetId : jsstring) :
  id <> targetId -> moveSong id targetId [] = [None].
Proof.
  intros H. apply str_eqb_neq in H.
  unfold moveSong, handleDragEnd; simpl. now rewrite H.
Qed.

Lemma moveSong_empty_list_witness :
  moveSong (js "a") (js "b") [] = [None] /\
  all_defined (moveSong (js "a") (js "b") []) = None.
Proof.
  assert (H : moveSong (js "a") (js "b") [] = [None]).
  { apply moveSong_empty_list. vm_compute. discriminate. }
  split; [exact H | now rewrite H].
Defined.

(** ** Reordering: undoing a move, and playing after a move *)

Lemma index_of_unique (songs : list Song.t) (n : nat) (x : Song.t) :
  unique_ids songs -> nth_error songs n = Some x ->
  index_of (Song.id x) songs = Z.of_nat n.
Proof.
  intros Hu Hn. unfold index_of, findIndex.
  rewrite (findIndex_from_first _ songs 0 n x Hn); [reflexivity| |].
  - apply str_eqb_refl.
  - intros m y Hm Hy. apply str_eqb_neq. intros Hid.
    pose proof (unique_ids_index songs m n y x Hu Hy Hn Hid). lia.
Qed.

Lemma source_index_inverse (f t i : nat) :
  source_index f t (source_index t f i) = i.
Proof.
  unfold source_index.
  destruct (Nat.eqb_spec i f), (Nat.leb_spec t i), (Nat.ltb_spec i f),
    (Nat.ltb_spec f i), (Nat.leb_spec i t); cbn [andb];
    repeat match goal with
    | |- context [Nat.eqb ?a ?b] => destruct (Nat.eqb_spec a b)
    | |- context [Nat.leb ?a ?b] => destruct (Nat.leb_spec a b)
    | |- context [Nat.ltb ?a ?b] => destruct (Nat.ltb_spec a b)
    end; cbn [andb]; lia.
Qed.

Lemma find_song_permutation (songs moved : list Song.t) (id : jsstring) :
  Permutation songs moved -> unique_ids songs ->
  find_song moved id = find_song songs id.
Proof.
  intros Hp Hu.
  assert (Hu' : unique_ids moved).
  { unfold unique_ids. apply Permutation_NoDup with (map Song.id songs);
      [now apply Permutation_map | assumption]. }
  destruct (find_song songs id) as [s|] eqn:E.
  - apply find_song_id in E as [Hin <-].
    apply find_song_unique; [assumption|].
    now apply Permutation_in with songs.
  - destruct (find_song moved id) as [s'|] eqn:E'; [|reflexivity].
    apply find_song_id in E' as [Hin Hid].
    apply Permutation_sym in Hp.
    pose proof (find_none _ _ E s' (Permutation_in _ Hp Hin)) as H.
    simpl in H. apply str_eqb_neq in H. contradiction.
Qed.

(** X19. In a list with unique ids a move can be undone: after
    [moveSong(id, targetId)], dropping the song [id] on the song that now
    sits where [id] came from gives the list back as it was. *)
Theorem moveSong_undo (songs : list Song.t) (id targetId : jsstring) :
  unique_ids songs -> id <> targetId ->
  (exists s, In s songs /\ Song.id s = id) ->
  (exists s, In s songs /\ Song.id s = targetId) ->
  exists (f : nat) (moved : list Song.t) (back : Song.t),
    index_of id songs = Z.of_nat f /\
    moveSong id targetId songs = map Some moved /\
    nth_error moved f = Some back /\
    moveSong id (Song.id back) moved = map Some songs.
Proof.
  intros Hu Hneq Hid Htid.
  destruct (index_of_present id songs Hid) as (f & s & Hf & Hs & Hsid & _).
  destruct (index_of_present targetId songs Htid)
    as (t & s' & Ht & Hs' & Hs'id & _).
  assert (Hflen : f < length songs) by (apply nth_error_Some; congruence).
  assert (Htlen : t < length songs) by (apply nth_error_Some; congruence).
  assert (Hne : songs <> []) by (intros ->; simpl in Hflen; lia).
  assert (Hft : f <> t) by (intros ->; congruence).
  subst id.
  destruct (moveSong_moves (Song.id s) targetId songs Hne Hneq)
    as (x & Hx & _ & E).
  rewrite Hf, position_found in Hx, E. rewrite Ht, position_found in E.
  rewrite Hs in Hx. inversion Hx; subst x. clear Hx.
  set (moved := insert_at t s (remove_at f songs)) in *.
  pose proof (remove_insert_permutation f t s songs Hs) as Hp.
  fold moved in Hp.
  assert (Hlen : length moved = length songs)
    by (symmetry; now apply Permutation_length).
  assert (Hnth : forall i,
             nth_error moved i = nth_error songs (source_index f t i))
    by (intros i; now apply nth_error_moved).
  assert (Hat : nth_error moved t = Some s)
    by (now rewrite Hnth, source_index_target).
  assert (Hu' : unique_ids moved).
  { unfold unique_ids. apply Permutation_NoDup with (map Song.id songs);
      [now apply Permutation_map | assumption]. }
  destruct (nth_error moved f) as [back|] eqn:Eb;
    [|apply nth_error_None in Eb; lia].
  assert (Hback : Song.id s <> Song.id back).
  { intros H. apply Hft.
    apply (unique_ids_index moved f t back s Hu' Eb Hat). congruence. }
  assert (Hne' : moved <> []) by (intros H; rewrite H in Hlen; simpl in Hlen; lia).
  destruct (moveSong_moves (Song.id s) (Song.id back) moved Hne' Hback)
    as (x & Hx & _ & E').
  rewrite (index_of_unique moved t s Hu' Hat), position_found in Hx, E'.
  rewrite (index_of_unique moved f back Hu' Eb), position_found in E'.
  rewrite Hat in Hx. inversion Hx; subst x. clear Hx.
  exists f, moved, back. repeat apply conj; try assumption.
  - rewrite E'. f_equal.
    apply nth_error_ext. intros i.
    rewrite (nth_error_moved moved t f s i Hat) by lia.
    now rewrite Hnth, source_index_inverse.
Qed.

Lemma three_songs_unique : unique_ids [songA; songB; songC].
Proof.
  unfold unique_ids; simpl. repeat constructor; simpl.
  - intros [H|[H|[]]]; vm_compute in H; discriminate.
  - intros [H|[]]; vm_compute in H; discriminate.
  - intros [].
Qed.

Lemma moveSong_undo_witness :
  exists (f : nat) (moved : list Song.t) (back : Song.t),
    index_of (js "a") [songA; songB; songC] = Z.of_nat f /\
    moveSong (js "a") (js "c") [songA; songB; songC] = map Some moved /\
    nth_error moved f = Some back /\
    moveSong (js "a") (Song.id back) moved = map Some [songA; songB; songC].
Proof.
  apply (moveSong_undo [songA; songB; songC] (js "a") (js "c")).
  - exact three_songs_unique.
  - vm_compute; discriminate.
  - exists songA. split; [simpl; auto | reflexivity].
  - exists songC. split; [simpl; auto | reflexivity].
Defined.

(** X20. In a list with unique ids a drag end does not change what
    [handlePlay] does: for every id the player state and the commands
    sent to the audio element are the same before and after the move. *)
Theorem reorder_keeps_playback (event : DragEndEvent.t)
    (songs moved : list Song.t) (id : jsstring) (ps : PlayerState.t) :
  unique_ids songs ->
  handleDragEnd event songs = map Some moved ->
  play moved id ps = play songs id ps /\
  play_commands moved id ps = play_commands songs id ps.
Proof.
  intros Hu E. apply handleDragEnd_permutation in E.
  unfold play, play_commands, dispatch, commands; simpl. unfold handlePlay.
  now rewrite (find_song_permutation songs moved id E Hu).
Qed.

Lemma reorder_keeps_playback_witness :
  play [songB; songC; songA] (js "c") initialPlayerState
  = play [songA; songB; songC] (js "c") initialPlayerState /\
  play_commands [songB; songC; songA] (js "c") initialPlayerState
  = play_commands [songA; songB; songC] (js "c") initialPlayerState.
Proof.
  apply (reorder_keeps_playback
           {| DragEndEvent.active := js "a"; DragEndEvent.over := Some (js "c") |}).
  - exact three_songs_unique.
  - reflexivity.
Defined.

(** ** The application as a whole *)

Lemma all_defined_map_Some {A : Type} (l : list A) :
  all_defined (map Some l) = Some l.
Proof.
  induction l as [|x l IH]; simpl; [reflexivity | now rewrite IH].
Qed.

Lemma app_step_drag (event : DragEndEvent.t) (app : App.t) :
  exists moved,
    app_step (AeDragEnd event) app = Some (with_songs moved app) /\
    Permutation (App.songs app) moved.
Proof.
  simpl. destruct (App.songs app) as [|s0 tl] eqn:Es.
  - exists []. split; [|constructor].
    destruct app; simpl in *. now subst.
  - destruct (handleDragEnd_nonempty event (s0 :: tl)) as (moved & E & Hp);
      [discriminate|].
    exists moved. now rewrite E, all_defined_map_Some.
Qed.

(** X21. No event makes the list hold an [undefined] slot: every event is
    handled to a next state, because the drag surface is rendered only
    while the list is not empty. *)
Theorem app_step_never_fails (e : AppEvent) (app : App.t) :
  exists app', app_step e app = Some app'.
Proof.
  destruct e; try (eexists; reflexivity).
  - simpl. destruct (fst (handleFileChange files)); [|eauto].
    destruct (handleFilesAdded l (App.songs app) (App.world app)). eauto.
  - destruct (app_step_drag event app) as (moved & E & _). eauto.
Qed.

Lemma player_invariant_play (songs : list Song.t) (ps : PlayerState.t)
    (src id : jsstring) :
  player_invariant songs ps src ->
  player_invariant songs (snd (handlePlay songs ps id) ps)
                   (src_after (fst (handlePlay songs ps id)) src).
Proof.
  intros (H1 & H2 & H3). unfold handlePlay.
  destruct (find_song songs id) as [s|] eqn:E; [|now repeat split].
  apply find_song_id in E as [Hin Hid].
  destruct (is_current ps id) eqn:Ec; simpl.
  - apply is_current_spec in Ec. repeat split; simpl.
    + rewrite Ec. discriminate.
    + exact H2.
    + exact H3.
  - repeat split; simpl; try discriminate.
    intros id' Hid'. inversion Hid'; subst id'. now exists s.
Qed.

Lemma player_invariant_stop (songs : list Song.t) (ps ps' : PlayerState.t)
    (src : jsstring) :
  currentSongId ps' = currentSongId ps ->
  (isPlaying ps' = true -> isPlaying ps = true) ->
  player_invariant songs ps src -> player_invariant songs ps' src.
Proof.
  intros Hc Hp (H1 & H2 & H3). unfold player_invariant.
  rewrite Hc. auto.
Qed.

Lemma player_invariant_songs (songs songs' : list Song.t)
    (ps : PlayerState.t) (src : jsstring) :
  (forall s, In s songs ->
     exists s', In s' songs' /\ Song.id s' = Song.id s /\
                Song.url s' = Song.url s) ->
  player_invariant songs ps src -> player_invariant songs' ps src.
Proof.
  intros Hkeep (H1 & H2 & H3). repeat split; try assumption.
  intros id Hid. destruct (H2 id Hid) as (s & Hin & Hsid & Hurl).
  destruct (Hkeep s Hin) as (s' & Hin' & Hid' & Hurl').
  exists s'. repeat split; congruence.
Qed.

Lemma handleRename_keeps (id newName : jsstring) (songs : list Song.t)
    (s : Song.t) :
  In s songs ->
  exists s', In s' (handleRename id newName songs) /\
             Song.id s' = Song.id s /\ Song.url s' = Song.url s /\
             Song.file s' = Song.file s.
Proof.
  intros Hin. unfold handleRename.
  exists (if str_eqb (Song.id s) id then Song.with_name s newName else s).
  split; [apply in_map_iff; now exists s |].
  now destruct (str_eqb (Song.id s) id).
Qed.

Lemma app_invariant_step (w0 : World) (e : AppEvent) (app app' : App.t) :
  fresh_uuids w0 ->
  app_invariant w0 app -> app_step e app = Some app' ->
  app_invariant w0 app'.
Proof.
  intros Hfresh (Hu & Hd & Hp) Hstep.
  destruct e; simpl in Hstep;
    try (inversion Hstep; subst app'; clear Hstep;
         split; [exact Hu | split; [exact Hd|]]; simpl).
  - now apply player_invariant_play.
  - apply player_invariant_stop with (ps := App.playerState app); simpl;
      try reflexivity; try discriminate; auto.
  - apply player_invariant_stop with (ps := App.playerState app); simpl;
      try reflexivity; try discriminate; auto.
  - apply player_invariant_stop with (ps := App.playerState app); simpl;
      try reflexivity; try discriminate; auto.
  - apply player_invariant_stop with (ps := App.playerState app); simpl;
      try reflexivity; try discriminate; auto.
  - apply player_invariant_stop with (ps := App.playerState app); simpl;
      try reflexivity; try discriminate; auto.
  - unfold cardButtonClick.
    destruct (card_isPlaying song (App.playerState app)).
    + apply player_invariant_stop with (ps := App.playerState app); simpl;
        try reflexivity; try discriminate; auto.
    + now apply player_invariant_play.
  - inversion Hstep; subst app'; clear Hstep. unfold app_invariant; simpl.
    split; [|split].
    + unfold unique_ids in *.
      now rewrite (handleRename_field Song.id id newName (App.songs app)).
    + destruct Hd as (k & Hw & Hs). exists k. split; [exact Hw|].
      intros s Hin. unfold handleRename in Hin.
      apply in_map_iff in Hin as (s0 & <- & Hin0).
      destruct (Hs s0 Hin0) as (j & Hj & Hid). exists j. split; [exact Hj|].
      now destruct (str_eqb (Song.id s0) id).
    + apply player_invariant_songs with (songs := App.songs app);
        [|assumption].
      intros s Hin.
      destruct (handleRename_keeps id newName (App.songs app) s Hin)
        as (s' & ? & ? & ? & ?). eauto.
  - destruct (fst (handleFileChange files)) as [fs|];
      [|inversion Hstep; subst app'; exact (conj Hu (conj Hd Hp))].
    destruct (addSongs_fst fs (App.songs app) (App.world app))
      as (ys & Hy & Hid & _ & Hw' & _).
    unfold addSongs in Hy, Hw'.
    destruct (handleFilesAdded fs (App.songs app) (App.world app))
      as [songs' w']. simpl in Hy, Hw'. subst songs'.
    inversion Hstep; subst app'; clear Hstep. unfold app_invariant; simpl.
    destruct Hd as (k & Hw & Hs).
    assert (Hnew : forall s, In s ys ->
              exists i, i < length fs /\ Song.id s = uuids w0 (k + i)).
    { intros s Hin. apply (in_map Song.id) in Hin. rewrite Hid in Hin.
      apply in_map_iff in Hin as (i & Hi & Hseq). apply in_seq in Hseq.
      exists i. split; [lia|]. now rewrite <- Hi, Hw. }
    split; [|split].
    + unfold unique_ids in *. rewrite map_app.
      apply NoDup_app; [assumption | |].
      * rewrite Hid. apply Finite.Injective_map_NoDup; [|apply seq_NoDup].
        intros i j H. rewrite !Hw in H. apply Hfresh in H. lia.
      * intros a Ha Hb.
        apply in_map_iff in Ha as (s & <- & Hin).
        apply in_map_iff in Hb as (s' & Heq & Hin').
        destruct (Hs s Hin) as (j & Hj & Hsj).
        destruct (Hnew s' Hin') as (i & _ & Hsi).
        rewrite Hsj, Hsi in Heq. apply Hfresh in Heq. lia.
    + exists (k + length fs). split.
      * intros i. rewrite Hw', Hw. f_equal. lia.
      * intros s Hin. apply in_app_or in Hin as [Hin|Hin].
        -- destruct (Hs s Hin) as (j & Hj & Hsj). exists j. split; [lia|auto].
        -- destruct (Hnew s Hin) as (i & Hi & Hsi).
           exists (k + i). split; [lia|auto].
    + apply player_invariant_songs with (songs := App.songs app);
        [|assumption].
      intros s Hin. exists s. repeat split. apply in_or_app. now left.
  - destruct (app_step_drag event app) as (moved & E & Hperm).
    simpl in E. rewrite E in Hstep. inversion Hstep; subst app'; clear Hstep.
    unfold app_invariant; simpl. split; [|split].
    + unfold unique_ids in *.
      apply Permutation_NoDup with (map Song.id (App.songs app));
        [now apply Permutation_map | assumption].
    + destruct Hd as (k & Hw & Hs). exists k. split; [exact Hw|].
      intros s Hin. apply Hs. apply Permutation_sym in Hperm.
      now apply Permutation_in with moved.
    + apply player_invariant_songs with (songs := App.songs app);
        [|assumption].
      intros s Hin. exists s. repeat split.
      now apply Permutation_in with (App.songs app).
Qed.

Lemma app_invariant_run (w0 : World) (evs : list AppEvent) (app app' : App.t) :
  fresh_uuids w0 ->
  app_invariant w0 app -> app_run evs app = Some app' ->
  app_invariant w0 app'.
Proof.
  intros Hfresh. revert app; induction evs as [|e evs IH]; intros app Hinv H;
    simpl in H.
  - now inversion H; subst.
  - destruct (app_step e app) as [app1|] eqn:E; [|discriminate].
    apply (IH app1); [|assumption].
    now apply app_invariant_step with e app.
Qed.

Lemma app_invariant_initial (w : World) : app_invariant w (initialApp w).
Proof.
  unfold app_invariant, initialApp; simpl. repeat apply conj.
  - constructor.
  - exists 0. split; [reflexivity | intros s []].
  - discriminate.
  - discriminate.
  - reflexivity.
Qed.

(** X22. When [crypto.randomUUID()] never returns an id twice, every state
    the application reaches from its first render has a list with unique
    ids, and its current song, if any, is a song of the list whose url is
    the source of the audio element; before a song is first played the
    element has no source. *)
Theorem app_keeps_current_song_loaded (w : World) (evs : list AppEvent)
    (app : App.t) :
  fresh_uuids w ->
  app_run evs (initialApp w) = Some app ->
  unique_ids (App.songs app) /\
  (isPlaying (App.playerState app) = true ->
   currentSongId (App.playerState app) <> None) /\
  (forall id, currentSongId (App.playerState app) = Some id ->
     exists s, find_song (App.songs app) id = Some s /\
               App.audio_src app = Song.url s) /\
  (currentSongId (App.playerState app) = None -> App.audio_src app = []).
Proof.
  intros Hfresh Hrun.
  destruct (app_invariant_run w evs (initialApp w) app Hfresh
              (app_invariant_initial w) Hrun) as (Hu & _ & H1 & H2 & H3).
  repeat apply conj; try assumption.
  intros id Hid. destruct (H2 id Hid) as (s & Hin & <- & Hsrc).
  exists s. split; [now apply find_song_unique | assumption].
Qed.

Lemma app_keeps_current_song_loaded_witness :
  exists app,
    app_run [AeFileChange (Some [sample_file "a.mp3"; sample_file "b.mp3"]);
             AePlay (uuids sample_world 1);
             AeDragEnd {| DragEndEvent.active := uuids sample_world 1;
                          DragEndEvent.over := Some (uuids sample_world 0) |};
             AeRename (uuids sample_world 1) (js "Carol");
             AePause]
            (initialApp sample_world) = Some app /\
    unique_ids (App.songs app) /\
    exists s, find_song (App.songs app) (uuids sample_world 1) = Some s /\
              App.audio_src app = Song.url s.
Proof.
  eexists. split; [reflexivity|].
  match goal with |- unique_ids (App.songs ?a) /\ _ =>
    destruct (app_keeps_current_song_loaded sample_world
      [AeFileChange (Some [sample_file "a.mp3"; sample_file "b.mp3"]);
       AePlay (uuids sample_world 1);
       AeDragEnd {| DragEndEvent.active := uuids sample_world 1;
                    DragEndEvent.over := Some (uuids sample_world 0) |};
       AeRename (uuids sample_world 1) (js "Carol");
       AePause] a sample_world_fresh eq_refl) as (Hu & _ & Hcur & _)
  end.
  split; [exact Hu|]. apply Hcur. reflexivity.
Defined.

(** X23. No event takes a song out of the list or changes its id, url or
    file, and the list never gets shorter; every event other than a
    rename keeps each song as it is. *)
Theorem app_step_keeps_songs (e : AppEvent) (app app' : App.t) :
  app_step e app = Some app' ->
  (forall s, In s (App.songs app) ->
     exists s', In s' (App.songs app') /\
                Song.id s' = Song.id s /\ Song.url s' = Song.url s /\
                Song.file s' = Song.file s) /\
  length (App.songs app) <= length (App.songs app') /\
  (is_rename e = false ->
   forall s, In s (App.songs app) -> In s (App.songs app')).
Proof.
  intros Hstep.
  assert (Hsame : App.songs app' = App.songs app ->
    (forall s, In s (App.songs app) ->
       exists s', In s' (App.songs app') /\
                  Song.id s' = Song.id s /\ Song.url s' = Song.url s /\
                  Song.file s' = Song.file s) /\
    length (App.songs app) <= length (App.songs app') /\
    (is_rename e = false ->
     forall s, In s (App.songs app) -> In s (App.songs app'))).
  { intros ->. repeat split; eauto. }
  destruct e; simpl in Hstep;
    try (inversion Hstep; subst app'; now apply Hsame).
  - inversion Hstep; subst app'; clear Hstep Hsame. simpl.
    repeat split.
    + intros s Hin. now apply handleRename_keeps.
    + unfold handleRename. now rewrite length_map.
    + discriminate.
  - destruct (fst (handleFileChange files)) as [fs|];
      [|inversion Hstep; subst app'; now apply Hsame].
    destruct (addSongs_fst fs (App.songs app) (App.world app))
      as (ys & Hy & _).
    unfold addSongs in Hy.
    destruct (handleFilesAdded fs (App.songs app) (App.world app))
      as [songs' w']. simpl in Hy. subst songs'.
    inversion Hstep; subst app'; clear Hstep Hsame. simpl.
    repeat split.
    + intros s Hin. exists s. repeat split. apply in_or_app. now left.
    + rewrite length_app. lia.
    + intros _ s Hin. apply in_or_app. now left.
  - destruct (app_step_drag event app) as (moved & E & Hperm).
    simpl in E. rewrite E in Hstep. inversion Hstep; subst app'.
    clear Hstep Hsame E. simpl. repeat split.
    + intros s Hin. exists s. repeat split.
      now apply Permutation_in with (App.songs app).
    + now rewrite (Permutation_length Hperm).
    + intros _ s Hin. now apply Permutation_in with (App.songs app).
Qed.

Lemma app_step_keeps_songs_witness :
  let app := {| App.songs := [songA; songB; songC];
                App.playerState := initialPlayerState;
                App.audio_src := []; App.world := sample_world |} in
  app_step (AeDragEnd {| DragEndEvent.active := js "a";
                         DragEndEvent.over := Some (js "c") |}) app
  = Some (with_songs [songB; songC; songA] app) /\
  In songA (App.songs (with_songs [songB; songC; songA] app)).
Proof.
  intros app. split; [reflexivity|].
  destruct (app_step_keeps_songs
              (AeDragEnd {| DragEndEvent.active := js "a";
                            DragEndEvent.over := Some (js "c") |})
              app (with_songs [songB; songC; songA] app) eq_refl)
    as (_ & _ & H).
  apply (H eq_refl songA). simpl. auto.
Defined.

(** ** Resuming from a card *)

(** X24. After a pause or the end of the track, the button on the card of
    the current song plays it again without assigning or reloading the
    source: after a pause from the time it was paused at, after the end of
    the track from 0. *)
Theorem card_button_resumes (songs : list Song.t) (ps : PlayerState.t)
    (song : Song.t) :
  In song songs ->
  currentSongId ps = Some (Song.id song) ->
  let resumed (stopped : PlayerState.t) :=
    snd (cardButtonClick songs stopped song) stopped in
  let paused := dispatch EvPause ps in
  let ended := dispatch EvEnded ps in
  cardButtonClick songs paused song = handlePlay songs paused (Song.id song) /\
  fst (cardButtonClick songs paused song) = [CmdPlay] /\
  fst (cardButtonClick songs ended song) = [CmdPlay] /\
  isPlaying (resumed paused) = true /\
  isPlaying (resumed ended) = true /\
  currentTime (resumed paused) = currentTime ps /\
  currentTime (resumed ended) = 0%float /\
  currentSongId (resumed paused) = currentSongId ps /\
  currentSongId (resumed ended) = currentSongId ps.
Proof.
  intros Hin Hcur. cbv zeta.
  destruct (find_song_present songs song Hin) as [s' Hs'].
  assert (Hc : forall st, currentSongId st = currentSongId ps ->
                          is_current st (Song.id song) = true).
  { intros st Hst. apply is_current_spec. congruence. }
  unfold cardButtonClick, card_isPlaying, isCurrentSong, dispatch; simpl.
  rewrite !andb_false_r. unfold handlePlay. rewrite Hs'.
  rewrite !Hc by reflexivity. simpl. repeat split.
Qed.

Lemma card_button_resumes_witness :
  let ps := {| isPlaying := true; currentSongId := Some (js "b");
               currentTime := 42%float; duration := 180%float |} in
  fst (cardButtonClick [songA; songB] (dispatch EvPause ps) songB) = [CmdPlay] /\
  currentTime (snd (cardButtonClick [songA; songB] (dispatch EvEnded ps) songB)
                   (dispatch EvEnded ps)) = 0%float.
Proof.
  intros ps.
  assert (Hin : In songB [songA; songB]) by (simpl; auto).
  assert (Hcur : currentSongId ps = Some (Song.id songB)) by reflexivity.
  destruct (card_button_resumes [songA; songB] ps songB Hin Hcur)
    as (_ & H2 & _ & _ & _ & _ & H7 & _).
  exact (conj H2 H7).
Defined.
